(** * KAPLAYware: the stage-sequencing engine of transitions, and the conductor

    A shallow embedding of
      - [src/scenes/game/transitions/makeTransition.ts] ([createTransition]),
      - [src/conductor.ts] (class [Conductor]),
    and the properties of their behaviour.

    Callbacks handed to the engine ([action] in [onStart], [defineStage],
    [onStageStart], ...) are opaque to it: the engine only ever calls them.
    A call [action()] is therefore recorded as an event of a trace, tagged
    with the kind of subscription whose closure made the call.  Stage
    behaviours call back into the stage manager from timers and tweens, that
    is in later calls; those are the [Call]s a run is driven with.  The
    [KEventController] that a subscription returns (to cancel or pause it)
    is not modelled: no property below is about cancelling. *)

From stdpp Require Import base decidable option list.
From Stdlib Require Import ZArith QArith Qround Lia.

#[local] Open Scope Z_scope.

(** ** KEvent *)

Module KEvent.

(** Modelled from the spec: the class [KEvent] of the KAPLAY library
    ([new k.KEvent()], [add], [trigger], [clear]); the library is imported by
    the sources and is no part of them.  Its contract (Event Channel):
    [add] subscribes a handler after the ones already there, [trigger] calls
    every handler subscribed when the call starts, in subscription order and
    synchronously, and [clear] drops all subscriptions without calling them.

    A channel is the list of its handlers, oldest first.  A handler is data
    of a type [H] (the closure it stands for is given by [run]); running one
    is a state transformer that also yields what it made observable. *)
Section Channel.
Context {H St Ev : Type}.

Definition t : Type := list H.

Definition new : list H := [].

Definition add (ev : list H) (h : H) : list H := ev ++ [h].

Definition clear (ev : list H) : list H := [].

Fixpoint trigger (run : H → St → St * list Ev) (ev : list H) (s : St)
  : St * list Ev :=
  match ev with
  | [] => (s, [])
  | h :: rest =>
      let '(s1, t1) := run h s in
      let '(s2, t2) := trigger run rest s1 in
      (s2, t1 ++ t2)
  end.

End Channel.

End KEvent.

(** ** Transitions *)

Module Transition.

(** [baseStages] and the type [TransitionStage] drawn from it. *)
Inductive TransitionStage : Type :=
  | prep | win | lose | bossPrep | bossWin | bossLose | speed.

#[global] Instance TransitionStage_eq_dec : EqDecision TransitionStage.
Proof. solve_decision. Defined.

Definition baseStages : list TransitionStage :=
  [prep; win; lose; bossPrep; bossWin; bossLose; speed].

(** The value a stage parameter holds at run time: a stage, or [undefined]
    ([None]) when it was read past the end of an array, as [stages[0]] of an
    empty list is. *)
Definition StageArg : Type := option TransitionStage.

(** [Array.prototype.indexOf]: the index of the first element strictly equal
    to [x], searching from index [k] upwards, and [-1] when there is none. *)
Fixpoint indexOf_from (k : Z) (x : StageArg) (l : list TransitionStage) : Z :=
  match l with
  | [] => -1
  | y :: rest => if decide (x = Some y) then k else indexOf_from (k + 1) x rest
  end.

Definition indexOf (x : StageArg) (l : list TransitionStage) : Z :=
  indexOf_from 0 x l.

Section WithActions.
Context {A : Type}.

(** *** Handlers *)

(** The closures subscribed to [stageManager.startEv]:
    [(stage) => { if (stage == this.stages[0]) action(); }] by [onStart] and
    [(actionStage) => { if (actionStage == stage) action(); }] by
    [defineStage]. *)
Inductive StartHandler : Type :=
  | HOnStart (action : A)
  | HDefineStage (stage : TransitionStage) (action : A).

(** The one closure subscribed to [stageManager.endEv]: the listener that
    goes to the next stage. *)
Inductive EndHandler : Type :=
  | HAdvance.

(** The closures subscribed to the outer [startEv] and [endEv] by
    [onStageStart] and [onStageEnd]:
    [(actionStage) => { if (actionStage == stage) action(); }]. *)
Record StageFilter : Type := mkFilter {
  filter_stage : TransitionStage;
  filter_action : A;
}.

(** *** Observations *)

(** What a run makes observable.  The [Ran...] events are the calls of the
    callbacks, one constructor per kind of subscription.  [Entered],
    [Finished] and [DefinitionCalled] record that [enterStage], [finishStage]
    and the transition definition were called. *)
Inductive Event : Type :=
  | RanOnStart (action : A)
  | RanStage (stage : TransitionStage) (action : A)
  | RanStageStart (stage : TransitionStage) (action : A)
  | RanStageEnd (stage : TransitionStage) (action : A)
  | RanPromptTime (action : A)
  | RanInputPromptTime (action : A)
  | RanTransitionEnd (action : A)
  | Entered (stage : StageArg)
  | Finished (stage : StageArg)
  | DefinitionCalled.

Definition Trace : Type := list Event.

(** *** The state closed over by the handle *)

(** Everything [createTransition] allocates and its closures share: the two
    channels and the list of [stageManager], the five outer channels, and
    the two flags of [camera] that the code writes. *)
Record Handle : Type := mkHandle {
  mgr_startEv : list StartHandler;   (* stageManager.startEv *)
  mgr_endEv : list EndHandler;       (* stageManager.endEv *)
  mgr_stages : list TransitionStage; (* stageManager.stages *)
  startEv : list StageFilter;
  endEv : list StageFilter;
  promptEv : list A;
  inputEv : list A;
  endTransEv : list A;
  camera_paused : bool;
  camera_hidden : bool;
}.

Definition set_mgr_startEv (v : list StartHandler) (h : Handle) : Handle :=
  mkHandle v (mgr_endEv h) (mgr_stages h) (startEv h) (endEv h) (promptEv h)
    (inputEv h) (endTransEv h) (camera_paused h) (camera_hidden h).

Definition set_mgr_endEv (v : list EndHandler) (h : Handle) : Handle :=
  mkHandle (mgr_startEv h) v (mgr_stages h) (startEv h) (endEv h) (promptEv h)
    (inputEv h) (endTransEv h) (camera_paused h) (camera_hidden h).

Definition set_mgr_stages (v : list TransitionStage) (h : Handle) : Handle :=
  mkHandle (mgr_startEv h) (mgr_endEv h) v (startEv h) (endEv h) (promptEv h)
    (inputEv h) (endTransEv h) (camera_paused h) (camera_hidden h).

Definition set_startEv (v : list StageFilter) (h : Handle) : Handle :=
  mkHandle (mgr_startEv h) (mgr_endEv h) (mgr_stages h) v (endEv h)
    (promptEv h) (inputEv h) (endTransEv h) (camera_paused h)
    (camera_hidden h).

Definition set_endEv (v : list StageFilter) (h : Handle) : Handle :=
  mkHandle (mgr_startEv h) (mgr_endEv h) (mgr_stages h) (startEv h) v
    (promptEv h) (inputEv h) (endTransEv h) (camera_paused h)
    (camera_hidden h).

Definition set_promptEv (v : list A) (h : Handle) : Handle :=
  mkHandle (mgr_startEv h) (mgr_endEv h) (mgr_stages h) (startEv h) (endEv h)
    v (inputEv h) (endTransEv h) (camera_paused h) (camera_hidden h).

Definition set_inputEv (v : list A) (h : Handle) : Handle :=
  mkHandle (mgr_startEv h) (mgr_endEv h) (mgr_stages h) (startEv h) (endEv h)
    (promptEv h) v (endTransEv h) (camera_paused h) (camera_hidden h).

Definition set_endTransEv (v : list A) (h : Handle) : Handle :=
  mkHandle (mgr_startEv h) (mgr_endEv h) (mgr_stages h) (startEv h) (endEv h)
    (promptEv h) (inputEv h) v (camera_paused h) (camera_hidden h).

Definition set_camera_paused (v : bool) (h : Handle) : Handle :=
  mkHandle (mgr_startEv h) (mgr_endEv h) (mgr_stages h) (startEv h) (endEv h)
    (promptEv h) (inputEv h) (endTransEv h) v (camera_hidden h).

Definition set_camera_hidden (v : bool) (h : Handle) : Handle :=
  mkHandle (mgr_startEv h) (mgr_endEv h) (mgr_stages h) (startEv h) (endEv h)
    (promptEv h) (inputEv h) (endTransEv h) (camera_paused h) v.

(** *** Statements *)

(** A [void] piece of code: the state it leaves and what it made observable
    on the way. *)
Definition Op : Type := Handle → Handle * Trace.

Definition skip : Op := λ h, (h, []).

Definition emit (e : Event) : Op := λ h, (h, [e]).

Definition modify (f : Handle → Handle) : Op := λ h, (f h, []).

Definition seq (f g : Op) : Op := λ h,
  let '(h1, t1) := f h in
  let '(h2, t2) := g h1 in
  (h2, t1 ++ t2).

#[local] Notation "f ;; g" := (seq f g)
  (at level 100, g at level 200, right associativity).

(** [ev.trigger(args)] on the channel that [ev] reads from the state when the
    statement starts. *)
Definition triggerOn {H : Type} (ev : Handle → list H) (run : H → Op) : Op :=
  λ h, KEvent.trigger run (ev h) h.

(** *** The closures *)

Definition run_StartHandler (stage : StageArg) (hd : StartHandler) : Op :=
  match hd with
  | HOnStart action => λ h,
      if decide (stage = mgr_stages h !! 0%nat)
      then emit (RanOnStart action) h else skip h
  | HDefineStage s action =>
      if decide (stage = Some s) then emit (RanStage s action) else skip
  end.

Definition run_StageFilter (ran : TransitionStage → A → Event)
    (actionStage : StageArg) (f : StageFilter) : Op :=
  if decide (actionStage = Some (filter_stage f))
  then emit (ran (filter_stage f) (filter_action f)) else skip.

(** *** stageManager *)

Definition onStart (action : A) : Op :=
  modify (λ h, set_mgr_startEv (KEvent.add (mgr_startEv h) (HOnStart action)) h).

Definition defineStage (stage : TransitionStage) (action : A) : Op :=
  modify (λ h,
    set_mgr_startEv (KEvent.add (mgr_startEv h) (HDefineStage stage action)) h).

Definition enterStage (stage : StageArg) : Op :=
  emit (Entered stage) ;;
  triggerOn mgr_startEv (run_StartHandler stage) ;;
  triggerOn startEv (run_StageFilter RanStageStart stage).

(** The listener of [createTransition] on [stageManager.endEv]. *)
Definition advance (stage : StageArg) : Op := λ h,
  let stages := mgr_stages h in
  if bool_decide (indexOf stage stages < Z.of_nat (length stages) - 1)
  then enterStage (stages !! Z.to_nat (indexOf stage stages + 1)) h
  else
    (triggerOn endTransEv (λ action, emit (RanTransitionEnd action)) ;;
     modify (λ h, set_startEv (KEvent.clear (startEv h)) h) ;;
     modify (λ h, set_endEv (KEvent.clear (endEv h)) h) ;;
     modify (λ h, set_inputEv (KEvent.clear (inputEv h)) h) ;;
     modify (λ h, set_promptEv (KEvent.clear (promptEv h)) h) ;;
     modify (λ h, set_endTransEv (KEvent.clear (endTransEv h)) h) ;;
     modify (set_camera_paused true) ;;
     modify (set_camera_hidden true)) h.

Definition run_EndHandler (stage : StageArg) (hd : EndHandler) : Op :=
  match hd with
  | HAdvance => advance stage
  end.

Definition finishStage (stage : StageArg) : Op :=
  emit (Finished stage) ;;
  triggerOn mgr_endEv (run_EndHandler stage) ;;
  triggerOn endEv (run_StageFilter RanStageEnd stage).

Definition callPrompt : Op :=
  triggerOn promptEv (λ action, emit (RanPromptTime action)).

Definition callInput : Op :=
  triggerOn inputEv (λ action, emit (RanInputPromptTime action)).

(** *** The returned handle *)

(** [get stages()] *)
Definition stages (h : Handle) : list TransitionStage := mgr_stages h.

Definition trigger (stages : list TransitionStage) : Op :=
  modify (set_mgr_stages stages) ;;
  enterStage (stages !! 0%nat) ;;
  modify (set_camera_paused false) ;;
  modify (set_camera_hidden false).

Definition onStageStart (stage : TransitionStage) (action : A) : Op :=
  modify (λ h, set_startEv (KEvent.add (startEv h) (mkFilter stage action)) h).

Definition onStageEnd (stage : TransitionStage) (action : A) : Op :=
  modify (λ h, set_endEv (KEvent.add (endEv h) (mkFilter stage action)) h).

Definition onTransitionEnd (action : A) : Op :=
  modify (λ h, set_endTransEv (KEvent.add (endTransEv h) action) h).

Definition onPromptTime (action : A) : Op :=
  modify (λ h, set_promptEv (KEvent.add (promptEv h) action) h).

Definition onInputPromptTime (action : A) : Op :=
  modify (λ h, set_inputEv (KEvent.add (inputEv h) action) h).

(** *** Callers *)

(** The members of [StateObject], as the transition definition and the stage
    behaviours call them. *)
Inductive ManagerCall : Type :=
  | OnStart (action : A)
  | DefineStage (stage : TransitionStage) (action : A)
  | EnterStage (stage : TransitionStage)
  | FinishStage (stage : TransitionStage)
  | CallPrompt
  | CallInput.

(** The members of [Transition], as the engine calls them. *)
Inductive TransitionCall : Type :=
  | Trigger (stages : list TransitionStage)
  | OnStageStart (stage : TransitionStage) (action : A)
  | OnStageEnd (stage : TransitionStage) (action : A)
  | OnPromptTime (action : A)
  | OnInputPromptTime (action : A)
  | OnTransitionEnd (action : A).

Inductive Call : Type :=
  | Mgr (c : ManagerCall)
  | Trans (c : TransitionCall).

Definition manager_call (c : ManagerCall) : Op :=
  match c with
  | OnStart action => onStart action
  | DefineStage stage action => defineStage stage action
  | EnterStage stage => enterStage (Some stage)
  | FinishStage stage => finishStage (Some stage)
  | CallPrompt => callPrompt
  | CallInput => callInput
  end.

Definition transition_call (c : TransitionCall) : Op :=
  match c with
  | Trigger stages => trigger stages
  | OnStageStart stage action => onStageStart stage action
  | OnStageEnd stage action => onStageEnd stage action
  | OnPromptTime action => onPromptTime action
  | OnInputPromptTime action => onInputPromptTime action
  | OnTransitionEnd action => onTransitionEnd action
  end.

Definition call (c : Call) : Op :=
  match c with
  | Mgr c => manager_call c
  | Trans c => transition_call c
  end.

(** A sequence of calls, one after the other. *)
Fixpoint run (cs : list Call) : Op :=
  match cs with
  | [] => skip
  | c :: rest => call c ;; run rest
  end.

(** *** createTransition *)

(** A transition definition is the calls it makes on the [stageManager] it
    is given when it is called. *)
Definition TransitionDefinition : Type := list ManagerCall.

Definition call_definition (transAction : TransitionDefinition) : Op :=
  emit DefinitionCalled ;; run (map Mgr transAction).

(** The state before the first statement that changes it: every channel
    newly made, [stages: []], and a camera object as [add] returns it. *)
Definition fresh : Handle :=
  mkHandle KEvent.new KEvent.new [] KEvent.new KEvent.new KEvent.new
    KEvent.new KEvent.new false false.

Definition createTransition (transAction : TransitionDefinition)
  : Handle * Trace :=
  (modify (λ h, set_mgr_endEv (KEvent.add (mgr_endEv h) HAdvance) h) ;;
   call_definition transAction) fresh.

(** *** What the theorems speak about *)

(** The state a handle is in after [createTransition transAction] and then
    the calls [cs]. *)
Definition handle_after (transAction : TransitionDefinition) (cs : list Call)
  : Handle :=
  fst (run cs (fst (createTransition transAction))).

(** The listener is subscribed, once, and nothing else is. *)
Definition installed (h : Handle) : Prop := mgr_endEv h = [HAdvance].

(** What the handlers of [stageManager.startEv], of the outer [startEv] and
    of the outer [endEv] do when the channel is triggered with [stage]. *)
Definition internal_start (stage : StageArg) (h : Handle) : Trace :=
  snd (triggerOn mgr_startEv (run_StartHandler stage) h).

Definition external_start (stage : StageArg) (h : Handle) : Trace :=
  snd (triggerOn startEv (run_StageFilter RanStageStart stage) h).

Definition external_end (stage : StageArg) (h : Handle) : Trace :=
  snd (triggerOn endEv (run_StageFilter RanStageEnd stage) h).

(** The state the listener leaves when it ends the transition. *)
Definition torn_down (h : Handle) : Handle :=
  mkHandle (mgr_startEv h) (mgr_endEv h) (mgr_stages h) [] [] [] [] []
    true true.

(** No subscriber on any of the five outer channels. *)
Definition outer_channels_empty (h : Handle) : Prop :=
  startEv h = [] ∧ endEv h = [] ∧ promptEv h = [] ∧ inputEv h = [] ∧
  endTransEv h = [].

(** The actions subscribed with [onStart], oldest first. *)
Definition onStart_actions (l : list StartHandler) : list A :=
  omap (λ hd, match hd with
              | HOnStart action => Some action
              | HDefineStage _ _ => None
              end) l.

(** The subscriptions a transition definition makes, in the order of its
    calls. *)
Definition registrations (transAction : TransitionDefinition)
  : list StartHandler :=
  omap (λ c, match c with
             | OnStart action => Some (HOnStart action)
             | DefineStage stage action => Some (HDefineStage stage action)
             | _ => None
             end) transAction.

(** The calls that subscribe to [stageManager.startEv]. *)
Definition registers (c : Call) : Prop :=
  match c with
  | Mgr (OnStart _) | Mgr (DefineStage _ _) => True
  | _ => False
  end.

(** The calls that subscribe to an outer channel. *)
Definition subscribes (c : Call) : Prop :=
  match c with
  | Trans (Trigger _) | Mgr _ => False
  | Trans _ => True
  end.

(** Events that are calls of a callback subscribed on an outer channel. *)
Definition is_external (e : Event) : bool :=
  match e with
  | RanStageStart _ _ | RanStageEnd _ _ | RanPromptTime _
  | RanInputPromptTime _ | RanTransitionEnd _ => true
  | _ => false
  end.

(** Events that are calls of a callback subscribed to
    [stageManager.startEv]. *)
Definition is_internal (e : Event) : bool :=
  match e with
  | RanOnStart _ | RanStage _ _ => true
  | _ => false
  end.

(** The calls of [onTransitionEnd] subscribers in a trace. *)
Definition transition_ends (t : Trace) : list A :=
  omap (λ e, match e with
             | RanTransitionEnd action => Some action
             | _ => None
             end) t.

(** Events that record [enterStage] and [finishStage]. *)
Definition is_stage_call (e : Event) : bool :=
  match e with
  | Entered _ | Finished _ => true
  | _ => false
  end.

(** The [Entered] and [Finished] events of a trace. *)
Definition stage_calls (t : Trace) : Trace := List.filter is_stage_call t.

(** What [finishStage(stage)] adds to the [Entered]/[Finished] events when
    the sequence is [S]. *)
Definition finish_calls (S : list TransitionStage) (stage : TransitionStage)
  : Trace :=
  Finished (Some stage) ::
  if bool_decide (indexOf (Some stage) S < Z.of_nat (length S) - 1)
  then [Entered (S !! Z.to_nat (indexOf (Some stage) S + 1))]
  else [].

(** Driving a run: [trigger(S)], then [finishStage] for each of [fs]. *)
Definition drive (S fs : list TransitionStage) : list Call :=
  Trans (Trigger S) :: map (λ stage, Mgr (FinishStage stage)) fs.

(** The calls of [trigger]. *)
Definition is_trigger (c : Call) : Prop :=
  match c with
  | Trans (Trigger _) => True
  | _ => False
  end.

(** The stages that [enterStage] was called with, in order. *)
Definition entries (t : Trace) : list StageArg :=
  omap (λ e, match e with
             | Entered stage => Some stage
             | _ => None
             end) t.

End WithActions.

Arguments StartHandler : clear implicits.
Arguments StageFilter : clear implicits.
Arguments Event : clear implicits.
Arguments Trace : clear implicits.
Arguments Handle : clear implicits.
Arguments Op : clear implicits.
Arguments ManagerCall : clear implicits.
Arguments TransitionCall : clear implicits.
Arguments Call : clear implicits.
Arguments TransitionDefinition : clear implicits.

#[global] Instance StartHandler_eq_dec `{EqDecision A} :
  EqDecision (StartHandler A).
Proof. solve_decision. Defined.

#[global] Instance Event_eq_dec `{EqDecision A} : EqDecision (Event A).
Proof. solve_decision. Defined.

#[global] Instance ManagerCall_eq_dec `{EqDecision A} :
  EqDecision (ManagerCall A).
Proof. solve_decision. Defined.

#[global] Instance TransitionCall_eq_dec `{EqDecision A} :
  EqDecision (TransitionCall A).
Proof. solve_decision. Defined.

#[global] Instance Call_eq_dec `{EqDecision A} : EqDecision (Call A).
Proof. solve_decision. Defined.

(** How often [x] occurs in [l]. *)
Definition count `{EqDecision B} (x : B) (l : list B) : nat :=
  length (filter (λ y, y = x) l).

End Transition.

(** ** The scenario of the transition tests *)

Module Scenario.
Import Transition.

(** What a subscriber of the handle sees. *)
Inductive Seen : Type :=
  | StageStart (stage : TransitionStage)
  | StageEnd (stage : TransitionStage)
  | TransitionEnd.

#[global] Instance Seen_eq_dec : EqDecision Seen.
Proof. solve_decision. Defined.

(** The actions a test passes to the stage manager. *)
Inductive Probe : Type :=
  | Behaviour (stage : TransitionStage)
  | Started
  | Outer (s : Seen).

#[global] Instance Probe_eq_dec : EqDecision Probe.
Proof. solve_decision. Defined.

(** A definition with a behaviour for every stage and one [onStart]. *)
Definition definition : TransitionDefinition Probe :=
  map (λ stage, DefineStage stage (Behaviour stage)) baseStages ++
  [OnStart Started].

(** [onStageStart] and [onStageEnd] for every stage, and [onTransitionEnd]. *)
Definition subscribe : list (Call Probe) :=
  flat_map (λ stage,
    [Trans (OnStageStart stage (Outer (StageStart stage)));
     Trans (OnStageEnd stage (Outer (StageEnd stage)))]) baseStages ++
  [Trans (OnTransitionEnd (Outer TransitionEnd))].

(** A handle made with [definition], with the subscriptions of
    [subscribe]. *)
Definition subscribed : Handle Probe := handle_after definition subscribe.

(** What the subscribers of the handle saw, in order. *)
Definition seen (t : Trace Probe) : list Seen :=
  omap (λ e, match e with
             | RanStageStart _ (Outer s) | RanStageEnd _ (Outer s)
             | RanTransitionEnd (Outer s) => Some s
             | _ => None
             end) t.

(** What the subscribers see from [finishStage(stage)] on, when after it
    the stages [rest] are finished in order: every finish but the last shows
    the start of the next stage and then the end of the finished one, and
    the last shows the end of the transition. *)
Fixpoint seen_from (stage : TransitionStage) (rest : list TransitionStage)
  : list Seen :=
  match rest with
  | [] => [TransitionEnd]
  | next :: rest' => StageStart next :: StageEnd stage :: seen_from next rest'
  end.

(** A handle with the listener and with the subscribers of [subscribed]. *)
Definition wired (h : Handle Probe) : Prop :=
  installed h ∧ startEv h = startEv subscribed ∧ endEv h = endEv subscribed
  ∧ endTransEv h = endTransEv subscribed.

End Scenario.

(** ** Conductor *)

Module Conductor.

Section WithActions.
Context {A : Type}.

(** The fields of a [Conductor] and what its closures capture: the channel
    [beatHitEv], whether [obj] still exists, the [bpm] it was made with and
    the variable [currentBeat].  The numbers of the source are doubles; here
    they are rationals, and nothing below depends on how the quotient is
    rounded. *)
Record t : Type := mk {
  beatHitEv : list A;
  obj_exists : bool;
  bpm : Q;
  currentBeat : Q;
}.

(** [new Conductor(k, sound, bpm)] *)
Definition new (bpm : Q) : t := mk KEvent.new true bpm 0%Q.

Definition onBeat (action : A) (c : t) : t :=
  mk (KEvent.add (beatHitEv c) action) (obj_exists c) (bpm c) (currentBeat c).

(** [destroy()]; [sound.onEnd] calls it. *)
Definition destroy (c : t) : t :=
  if obj_exists c
  then mk (KEvent.clear (beatHitEv c)) false (bpm c) (currentBeat c)
  else c.

(** [sound.time() / (60 / bpm)] *)
Definition beatTime (bpm time : Q) : Q := (time / (60 / bpm))%Q.

(** The closure given to [obj.onUpdate], run when [sound.time()] is
    [time]: the new state and the callbacks it called, in order. *)
Definition update (time : Q) (c : t) : t * list A :=
  let oldBeat := Qfloor (currentBeat c) in
  let newBeat := Qfloor (beatTime (bpm c) time) in
  let c' := mk (beatHitEv c) (obj_exists c) (bpm c) (inject_Z newBeat) in
  if decide (newBeat = oldBeat)
  then (c', [])
  else KEvent.trigger (λ action s, (s, [action])) (beatHitEv c) c'.

(** The state the closure leaves: only [currentBeat] is written. *)
Definition after_frame (time : Q) (c : t) : t :=
  mk (beatHitEv c) (obj_exists c) (bpm c)
    (inject_Z (Qfloor (beatTime (bpm c) time))).

(** A frame of the engine: the update handlers of [obj] run while it
    exists. *)
Definition frame (time : Q) (c : t) : t * list A :=
  if obj_exists c then update time c else (c, []).

(** The frames at which [sound.time()] reads [times], one after the other. *)
Fixpoint frames (times : list Q) (c : t) : t * list A :=
  match times with
  | [] => (c, [])
  | time :: rest =>
      let '(c1, t1) := frame time c in
      let '(c2, t2) := frames rest c1 in
      (c2, t1 ++ t2)
  end.

(** The beat the playback position [time] lies in. *)
Definition beatIndex (bpm time : Q) : Z := Qfloor (beatTime bpm time).

(** How many of the beats [beats], read one after the other, differ from
    the one read before them; [beat] is the one read before the first. *)
Fixpoint changes (beat : Z) (beats : list Z) : nat :=
  match beats with
  | [] => 0
  | b :: rest => ((if decide (b = beat) then 0 else 1) + changes b rest)%nat
  end.

(** [onBeat] for each of [actions], in order. *)
Definition onBeats (actions : list A) (c : t) : t :=
  foldl (λ c action, onBeat action c) c actions.

(** Between two frames the beat moves on by one at most. *)
Fixpoint stepwise (bpm : Q) (beat : Z) (times : list Q) : Prop :=
  match times with
  | [] => True
  | time :: rest =>
      (beatIndex bpm time = beat ∨ beatIndex bpm time = beat + 1) ∧
      stepwise bpm (beatIndex bpm time) rest
  end.

End WithActions.

Arguments t : clear implicits.

End Conductor.

(** * Properties *)

(** ** Channels *)

Module KEventFacts.

Lemma trigger_app {H St Ev : Type} (run : H → St → St * list Ev)
    (l1 l2 : list H) (s : St) :
  KEvent.trigger run (l1 ++ l2) s =
  let '(s1, t1) := KEvent.trigger run l1 s in
  let '(s2, t2) := KEvent.trigger run l2 s1 in
  (s2, t1 ++ t2).
Proof.
  revert s. induction l1 as [|h l1 IH]; intros s; simpl.
  - by destruct (KEvent.trigger run l2 s).
  - destruct (run h s) as [s1 t1]. rewrite IH.
    destruct (KEvent.trigger run l1 s1) as [s2 t2].
    destruct (KEvent.trigger run l2 s2) as [s3 t3].
    by rewrite app_assoc.
Qed.

(** Handlers that leave the state alone: the channel calls each of them on
    the same state, and leaves it as it was. *)
Lemma trigger_pure {H St Ev : Type} (run : H → St → St * list Ev)
    (l : list H) (s : St) :
  (∀ h, h ∈ l → fst (run h s) = s) →
  KEvent.trigger run l s = (s, flat_map (λ h, snd (run h s)) l).
Proof.
  induction l as [|h l IH]; intros Hpure; simpl; [done|].
  pose proof (Hpure h ltac:(left)) as Hh.
  destruct (run h s) as [s1 t1] eqn:Hrun. simpl in Hh. subst s1.
  rewrite IH; [done|]. intros h' Hin. apply Hpure. by right.
Qed.

Lemma trigger_emit {H St Ev : Type} (f : H → Ev) (l : list H) (s : St) :
  KEvent.trigger (λ h s, (s, [f h])) l s = (s, map f l).
Proof.
  revert s. induction l as [|h l IH]; intros s; simpl; [done|].
  by rewrite IH.
Qed.

(** What every handler preserves, the channel preserves. *)
Lemma trigger_invariant {H St Ev : Type} (P : St → Prop)
    (run : H → St → St * list Ev) (l : list H) (s : St) :
  (∀ h s, P s → P (fst (run h s))) → P s → P (fst (KEvent.trigger run l s)).
Proof.
  intros Hrun. revert s. induction l as [|h l IH]; intros s Hs; simpl; [done|].
  specialize (Hrun h s Hs). destruct (run h s) as [s1 t1]. simpl in Hrun.
  specialize (IH s1 Hrun). by destruct (KEvent.trigger run l s1).
Qed.

End KEventFacts.

(** ** Transitions: what each operation does *)

Module TransitionFacts.
Import Transition KEventFacts.

#[local] Notation "f ;; g" := (seq f g)
  (at level 100, g at level 200, right associativity).

(** *** indexOf *)

Lemma indexOf_from_range (k : Z) (x : StageArg) (l : list TransitionStage) :
  indexOf_from k x l = -1 ∨
  k ≤ indexOf_from k x l < k + Z.of_nat (length l).
Proof.
  revert k. induction l as [|y l IH]; intros k; simpl; [by left|].
  case_decide; [right; lia|]. destruct (IH (k + 1)); [by left|right; lia].
Qed.

(** The element at the index found is the one looked for. *)
Lemma indexOf_from_found (k : Z) (x : StageArg) (l : list TransitionStage) :
  0 ≤ k → indexOf_from k x l ≠ -1 →
  l !! Z.to_nat (indexOf_from k x l - k) = x.
Proof.
  revert k. induction l as [|y l IH]; intros k Hk Hfound; simpl in *; [done|].
  case_decide as Hxy.
  - by rewrite Z.sub_diag.
  - destruct (indexOf_from_range (k + 1) x l) as [|Hrange]; [done|].
    replace (Z.to_nat (indexOf_from (k + 1) x l - k))
      with (Datatypes.S (Z.to_nat (indexOf_from (k + 1) x l - (k + 1))))
      by lia.
    simpl. apply IH; [lia|done].
Qed.

(** Nothing is found only if nothing is there. *)
Lemma indexOf_from_absent (k : Z) (y : TransitionStage)
    (l : list TransitionStage) :
  0 ≤ k → indexOf_from k (Some y) l = -1 → y ∉ l.
Proof.
  revert k. induction l as [|z l IH]; intros k Hk Habs; simpl in *.
  - apply not_elem_of_nil.
  - case_decide as Hyz; [lia|].
    apply not_elem_of_cons. split; [congruence|]. by apply (IH (k + 1)); [lia|].
Qed.

(** The index found is the first. *)
Lemma indexOf_from_first (k : Z) (y : TransitionStage)
    (l : list TransitionStage) (i : nat) :
  l !! i = Some y → (∀ j, (j < i)%nat → l !! j ≠ Some y) →
  indexOf_from k (Some y) l = k + Z.of_nat i.
Proof.
  revert k i. induction l as [|z l IH]; intros k i Hi Hfirst; [done|].
  simpl. destruct i as [|i]; simpl in Hi.
  - rewrite decide_True by congruence. lia.
  - rewrite decide_False.
    + rewrite (IH (k + 1) i); [lia|done|].
      intros j Hj. apply (Hfirst (Datatypes.S j)). lia.
    + intros Heq. apply (Hfirst 0%nat); [lia|]. simpl. congruence.
Qed.

Lemma indexOf_found (x : StageArg) (l : list TransitionStage) :
  indexOf x l ≠ -1 → l !! Z.to_nat (indexOf x l) = x.
Proof.
  intros Hfound. unfold indexOf in *.
  rewrite <- (indexOf_from_found 0 x l) at 2 by done.
  by rewrite Z.sub_0_r.
Qed.

Lemma indexOf_range (x : StageArg) (l : list TransitionStage) :
  -1 ≤ indexOf x l < Z.of_nat (length l).
Proof. unfold indexOf. destruct (indexOf_from_range 0 x l); lia. Qed.

Lemma indexOf_absent (y : TransitionStage) (l : list TransitionStage) :
  indexOf (Some y) l = -1 → y ∉ l.
Proof. by apply indexOf_from_absent. Qed.

Lemma indexOf_NoDup (y : TransitionStage) (l : list TransitionStage)
    (i : nat) :
  NoDup l → l !! i = Some y → indexOf (Some y) l = Z.of_nat i.
Proof.
  intros Hnd Hi. unfold indexOf. rewrite (indexOf_from_first 0 y l i); [done..|].
  intros j Hj Hjy. assert (j = i) by (by eapply NoDup_lookup). lia.
Qed.

(** *** Counting *)

Section Count.
Context `{EqDecision B}.

Lemma count_nil (x : B) : count x [] = 0%nat.
Proof. done. Qed.

Lemma count_cons (x y : B) (l : list B) :
  count x (y :: l) = ((if decide (y = x) then 1 else 0) + count x l)%nat.
Proof. unfold count. rewrite filter_cons. by case_decide. Qed.

Lemma count_app (x : B) (l1 l2 : list B) :
  count x (l1 ++ l2) = (count x l1 + count x l2)%nat.
Proof. unfold count. by rewrite filter_app, length_app. Qed.

Lemma count_Forall_0 (f : B → bool) (x : B) (l : list B) :
  Forall (λ e, f e = true) l → f x = false → count x l = 0%nat.
Proof.
  intros Hl Hx. induction Hl as [|e l He _ IH]; [done|].
  rewrite count_cons, IH. rewrite decide_False; [done|]. congruence.
Qed.

Lemma count_map_0 {C : Type} (g : C → B) (x : B) (l : list C) :
  (∀ c, g c ≠ x) → count x (map g l) = 0%nat.
Proof.
  intros Hg. induction l as [|c l IH]; [done|].
  rewrite map_cons, count_cons, IH. by rewrite decide_False.
Qed.

End Count.

Lemma indexOf_from_present (k : Z) (y : TransitionStage)
    (l : list TransitionStage) :
  0 ≤ k → y ∈ l → indexOf_from k (Some y) l ≠ -1.
Proof.
  revert k. induction l as [|z l IH]; intros k Hk Hin.
  - by apply not_elem_of_nil in Hin.
  - simpl. case_decide as Hyz; [lia|].
    apply elem_of_cons in Hin as [->|Hin]; [done|]. apply IH; [lia|done].
Qed.

Lemma indexOf_present (y : TransitionStage) (l : list TransitionStage) :
  y ∈ l → 0 ≤ indexOf (Some y) l.
Proof.
  intros Hin. pose proof (indexOf_range (Some y) l).
  pose proof (indexOf_from_present 0 y l ltac:(done) Hin). unfold indexOf in *.
  lia.
Qed.

Section WithActions.
Context {A : Type}.
Implicit Types (h : Handle A) (x : StageArg) (S : list TransitionStage).

Lemma run_StartHandler_state x (hd : StartHandler A) h :
  fst (run_StartHandler x hd h) = h.
Proof. destruct hd; simpl; by repeat case_decide. Qed.

Lemma run_StageFilter_state ran x (f : StageFilter A) h :
  fst (run_StageFilter ran x f h) = h.
Proof. unfold run_StageFilter. by case_decide. Qed.

Lemma internal_start_eq x h :
  triggerOn mgr_startEv (run_StartHandler x) h = (h, internal_start x h).
Proof.
  unfold internal_start, triggerOn.
  rewrite trigger_pure; [done|]. intros. apply run_StartHandler_state.
Qed.

Lemma external_start_eq x h :
  triggerOn startEv (run_StageFilter RanStageStart x) h =
  (h, external_start x h).
Proof.
  unfold external_start, triggerOn.
  rewrite trigger_pure; [done|]. intros. apply run_StageFilter_state.
Qed.

Lemma external_end_eq x h :
  triggerOn endEv (run_StageFilter RanStageEnd x) h = (h, external_end x h).
Proof.
  unfold external_end, triggerOn.
  rewrite trigger_pure; [done|]. intros. apply run_StageFilter_state.
Qed.

(** [enterStage] only calls handlers: it leaves the state as it is. *)
Lemma enterStage_eq x h :
  enterStage x h = (h, Entered x :: internal_start x h ++ external_start x h).
Proof.
  unfold enterStage, seq, emit.
  by rewrite internal_start_eq, external_start_eq.
Qed.

Lemma internal_start_flat_map x h :
  internal_start x h =
  flat_map (λ hd, snd (run_StartHandler x hd h)) (mgr_startEv h).
Proof.
  unfold internal_start, triggerOn.
  rewrite trigger_pure; [done|]. intros. apply run_StartHandler_state.
Qed.

Lemma external_start_nil x h : startEv h = [] → external_start x h = [].
Proof. unfold external_start, triggerOn. by intros ->. Qed.

Lemma external_end_nil x h : endEv h = [] → external_end x h = [].
Proof. unfold external_end, triggerOn. by intros ->. Qed.

(** The two branches of the listener. *)
Lemma advance_next x h :
  indexOf x (mgr_stages h) < Z.of_nat (length (mgr_stages h)) - 1 →
  advance x h =
  enterStage (mgr_stages h !! Z.to_nat (indexOf x (mgr_stages h) + 1)) h.
Proof. intros Hlt. unfold advance. by rewrite bool_decide_eq_true_2. Qed.

Lemma advance_last x h :
  ¬ indexOf x (mgr_stages h) < Z.of_nat (length (mgr_stages h)) - 1 →
  advance x h = (torn_down h, map RanTransitionEnd (endTransEv h)).
Proof.
  intros Hge. unfold advance. rewrite bool_decide_eq_false_2 by done.
  unfold seq, triggerOn, emit, modify. rewrite trigger_emit. simpl.
  by rewrite !app_nil_r.
Qed.

(** [finishStage] on a handle whose listener is the one handler of
    [stageManager.endEv]. *)
Lemma finishStage_next x h :
  installed h →
  indexOf x (mgr_stages h) < Z.of_nat (length (mgr_stages h)) - 1 →
  finishStage x h =
  (h, Finished x ::
      snd (enterStage
             (mgr_stages h !! Z.to_nat (indexOf x (mgr_stages h) + 1)) h) ++
      external_end x h).
Proof.
  intros Hinst Hlt. unfold finishStage, seq, emit.
  unfold triggerOn at 1. rewrite Hinst. simpl.
  rewrite advance_next by done. rewrite enterStage_eq. simpl.
  rewrite external_end_eq. by rewrite app_nil_r.
Qed.

Lemma finishStage_last x h :
  installed h →
  ¬ indexOf x (mgr_stages h) < Z.of_nat (length (mgr_stages h)) - 1 →
  finishStage x h =
  (torn_down h, Finished x :: map RanTransitionEnd (endTransEv h)).
Proof.
  intros Hinst Hge. unfold finishStage, seq, emit.
  unfold triggerOn at 1. rewrite Hinst. simpl.
  rewrite advance_last by done.
  rewrite external_end_eq, external_end_nil by done.
  by rewrite !app_nil_r.
Qed.

(** [trigger], statement by statement. *)
Lemma trigger_eq S h :
  trigger S h =
  (set_camera_hidden false (set_camera_paused false (set_mgr_stages S h)),
   snd (enterStage (S !! 0%nat) (set_mgr_stages S h))).
Proof.
  unfold trigger, seq, modify. rewrite enterStage_eq. simpl.
  by rewrite !app_nil_r.
Qed.

Lemma callPrompt_eq h : callPrompt h = (h, map RanPromptTime (promptEv h)).
Proof. unfold callPrompt, triggerOn, emit. by rewrite trigger_emit. Qed.

Lemma callInput_eq h :
  callInput h = (h, map RanInputPromptTime (inputEv h)).
Proof. unfold callInput, triggerOn, emit. by rewrite trigger_emit. Qed.

(** *** Sequences of calls *)

Lemma run_app (cs1 cs2 : list (Call A)) h :
  run (cs1 ++ cs2) h =
  let '(h1, t1) := run cs1 h in
  let '(h2, t2) := run cs2 h1 in
  (h2, t1 ++ t2).
Proof.
  revert h. induction cs1 as [|c cs1 IH]; intros h; simpl.
  - unfold skip. by destruct (run cs2 h).
  - unfold seq. destruct (call c h) as [h1 t1]. rewrite IH.
    destruct (run cs1 h1) as [h2 t2]. destruct (run cs2 h2) as [h3 t3].
    by rewrite app_assoc.
Qed.

Lemma run_cons (c : Call A) cs h :
  run (c :: cs) h =
  (fst (run cs (fst (call c h))),
   snd (call c h) ++ snd (run cs (fst (call c h)))).
Proof.
  simpl. unfold seq. destruct (call c h) as [h1 t1]. simpl.
  by destruct (run cs h1).
Qed.

(** Induction over a sequence of calls: a property [I] of the state that
    every allowed call keeps, and a property [T] of traces that every
    allowed call's trace has and that concatenation keeps. *)
Lemma run_ind (P : Call A → Prop) (I : Handle A → Prop)
    (T : Trace A → Prop) :
  T [] →
  (∀ t1 t2, T t1 → T t2 → T (t1 ++ t2)) →
  (∀ c h, P c → I h → I (fst (call c h)) ∧ T (snd (call c h))) →
  ∀ cs h, Forall P cs → I h → I (fst (run cs h)) ∧ T (snd (run cs h)).
Proof.
  intros Hnil Happ Hstep cs.
  induction cs as [|c cs IH]; intros h Hcs Hh; [done|].
  apply Forall_cons in Hcs as [Hc Hcs]. rewrite run_cons. simpl.
  destruct (Hstep c h Hc Hh) as [Hh1 Ht1].
  destruct (IH _ Hcs Hh1) as [Hh2 Ht2]. auto.
Qed.

(** *** The listener stays subscribed *)

Lemma advance_mgr_endEv x h : mgr_endEv (fst (advance x h)) = mgr_endEv h.
Proof.
  destruct (decide (indexOf x (mgr_stages h)
                    < Z.of_nat (length (mgr_stages h)) - 1)).
  - rewrite advance_next by done. by rewrite enterStage_eq.
  - by rewrite advance_last.
Qed.

Lemma installed_call (c : Call A) h :
  installed h → installed (fst (call c h)).
Proof.
  unfold installed. intros Hinst.
  destruct c as [[a|s a|s|s| |]|[S|s a|s a|a|a|a]]; simpl; try done.
  - by rewrite enterStage_eq.
  - destruct (decide (indexOf (Some s) (mgr_stages h)
                      < Z.of_nat (length (mgr_stages h)) - 1)).
    + by rewrite finishStage_next.
    + by rewrite finishStage_last.
  - by rewrite callPrompt_eq.
  - by rewrite callInput_eq.
  - by rewrite trigger_eq.
Qed.

Lemma installed_run (cs : list (Call A)) h :
  installed h → installed (fst (run cs h)).
Proof.
  intros Hinst.
  apply (run_ind (λ _, True) installed (λ _, True)); try done.
  - intros c h' _ Hh'. split; [by apply installed_call|done].
  - by apply Forall_true.
Qed.

Lemma createTransition_eq (transAction : TransitionDefinition A) :
  createTransition transAction =
  (fst (run (map Mgr transAction) (set_mgr_endEv [HAdvance] fresh)),
   DefinitionCalled ::
   snd (run (map Mgr transAction) (set_mgr_endEv [HAdvance] fresh))).
Proof.
  unfold createTransition, call_definition, seq, modify, emit. simpl.
  by destruct (run _ _).
Qed.

Lemma installed_createTransition (transAction : TransitionDefinition A) :
  installed (fst (createTransition transAction)).
Proof. rewrite createTransition_eq. simpl. by apply installed_run. Qed.

Lemma installed_handle_after (transAction : TransitionDefinition A) cs :
  installed (handle_after transAction cs).
Proof. apply installed_run, installed_createTransition. Qed.

(** *** The first stage of an empty list *)

Lemma internal_start_undefined h :
  mgr_stages h = [] →
  internal_start None h = map RanOnStart (onStart_actions (mgr_startEv h)).
Proof.
  intros Hnil. rewrite internal_start_flat_map. unfold onStart_actions.
  induction (mgr_startEv h) as [|[a|s a] l IH]; simpl; [done| |done].
  rewrite Hnil. simpl. by rewrite IH.
Qed.

Lemma external_start_undefined h : external_start None h = [].
Proof.
  unfold external_start, triggerOn.
  rewrite trigger_pure by (intros; apply run_StageFilter_state). simpl.
  by induction (startEv h) as [|f l IH].
Qed.

(** C10: [trigger([])] raises nothing.  It sets the sequence to the empty
    list, dispatches a stage-enter for [undefined], in which exactly the
    actions registered with [onStart] run (in subscription order) and neither
    a [defineStage] behaviour nor an [onStageStart] subscriber does, and
    unpauses and unhides the camera. *)
Theorem trigger_empty_runs_onStart h :
  trigger [] h =
  (set_camera_hidden false (set_camera_paused false (set_mgr_stages [] h)),
   Entered None :: map RanOnStart (onStart_actions (mgr_startEv h))).
Proof.
  rewrite trigger_eq, enterStage_eq. simpl.
  rewrite internal_start_undefined by done.
  by rewrite external_start_undefined, app_nil_r.
Qed.

(** *** trigger and the stages view *)

(** C6: [trigger(S)] for a non-empty [S] replaces the sequence with [S]
    whatever it was, enters the first stage of [S] and unpauses and unhides
    the camera, touching nothing else; the [stages] getter reads the
    sequence of the stage manager at the time it is called, so it is [S]
    after [trigger(S)] and [S2] after a later [trigger(S2)]. *)
Theorem trigger_replaces_sequence h (first : TransitionStage)
    (rest S2 : list TransitionStage) :
  let S := first :: rest in
  let h' := fst (trigger S h) in
  h' = set_camera_hidden false (set_camera_paused false (set_mgr_stages S h))
  ∧ mgr_stages h' = S
  ∧ camera_paused h' = false ∧ camera_hidden h' = false
  ∧ snd (trigger S h) = snd (enterStage (Some first) (set_mgr_stages S h))
  ∧ head (snd (trigger S h)) = Some (Entered (Some first))
  ∧ stages h' = S
  ∧ stages (fst (trigger S2 h')) = S2
  ∧ stages h = mgr_stages h.
Proof.
  intros S h'. subst h'. rewrite !trigger_eq. simpl.
  rewrite enterStage_eq. by repeat split.
Qed.

(** *** The transition definition *)

Lemma call_not_DefinitionCalled (c : Call A) h :
  DefinitionCalled ∉ snd (call c h).
Proof.
  assert (Hint : ∀ x h', DefinitionCalled ∉ internal_start x h').
  { intros x h'. rewrite internal_start_flat_map.
    induction (mgr_startEv h') as [|hd l IH]; simpl; [apply not_elem_of_nil|].
    rewrite elem_of_app. intros [Hin|Hin]; [|done].
    destruct hd; simpl in Hin; repeat case_decide; simpl in Hin;
      try (by apply not_elem_of_nil in Hin);
      by apply list_elem_of_singleton in Hin. }
  assert (Hext : ∀ ran x (l : list (StageFilter A)) h',
             (∀ s a, ran s a ≠ DefinitionCalled) →
             DefinitionCalled ∉
               snd (KEvent.trigger (run_StageFilter ran x) l h')).
  { intros ran x l h' Hran.
    rewrite trigger_pure by (intros; apply run_StageFilter_state). simpl.
    induction l as [|f l IH]; simpl; [apply not_elem_of_nil|].
    rewrite elem_of_app. intros [Hin|Hin]; [|done].
    unfold run_StageFilter in Hin. case_decide; simpl in Hin.
    - apply list_elem_of_singleton in Hin. by eapply Hran.
    - by apply not_elem_of_nil in Hin. }
  assert (Henter : ∀ x h', DefinitionCalled ∉ snd (enterStage x h')).
  { intros x h'. rewrite enterStage_eq. simpl.
    rewrite not_elem_of_cons, elem_of_app. split; [done|].
    intros [Hin|Hin]; [by eapply Hint|]. by eapply (Hext RanStageStart). }
  assert (Hmap : ∀ (f : A → Event A) l,
             (∀ a, f a ≠ DefinitionCalled) → DefinitionCalled ∉ map f l).
  { intros f l Hf Hin. apply list_elem_of_fmap in Hin as (a & Ha & _).
    by eapply Hf. }
  destruct c as [[a|s a|s|s| |]|[S|s a|s a|a|a|a]]; simpl;
    try apply not_elem_of_nil.
  - apply Henter.
  - unfold finishStage, seq, emit.
    destruct (triggerOn mgr_endEv (run_EndHandler (Some s)) h)
      as [h1 t1] eqn:Hadv.
    destruct (triggerOn endEv (run_StageFilter RanStageEnd (Some s)) h1)
      as [h2 t2] eqn:Hend. simpl.
    rewrite not_elem_of_cons, elem_of_app. split; [done|].
    intros [Hin|Hin].
    + revert Hin. replace t1 with
        (snd (triggerOn mgr_endEv (run_EndHandler (Some s)) h))
        by (by rewrite Hadv).
      unfold triggerOn. generalize h at 2.
      induction (mgr_endEv h) as [|[] l IH]; intros h'; simpl;
        [apply not_elem_of_nil|].
      destruct (advance (Some s) h') as [h3 t3] eqn:Hstep.
      specialize (IH h3). destruct (KEvent.trigger _ l h3) as [h4 t4].
      simpl in *. rewrite elem_of_app. intros [Hin|Hin]; [|done].
      revert Hin. replace t3 with (snd (advance (Some s) h'))
        by (by rewrite Hstep).
      destruct (decide (indexOf (Some s) (mgr_stages h')
                        < Z.of_nat (length (mgr_stages h')) - 1)).
      * rewrite advance_next by done. apply Henter.
      * rewrite advance_last by done. simpl. by apply Hmap.
    + revert Hin. replace t2 with
        (snd (triggerOn endEv (run_StageFilter RanStageEnd (Some s)) h1))
        by (by rewrite Hend).
      by apply Hext.
  - rewrite callPrompt_eq. by apply Hmap.
  - rewrite callInput_eq. by apply Hmap.
  - rewrite trigger_eq. apply Henter.
Qed.

Lemma run_not_DefinitionCalled (cs : list (Call A)) h :
  DefinitionCalled ∉ snd (run cs h).
Proof.
  apply (run_ind (λ _, True) (λ _, True) (λ t, DefinitionCalled ∉ t)).
  - apply not_elem_of_nil.
  - intros t1 t2 H1 H2. rewrite elem_of_app. tauto.
  - intros c h' _ _. split; [done|apply call_not_DefinitionCalled].
  - by apply Forall_true.
  - done.
Qed.

Lemma call_mgr_startEv (c : Call A) h :
  installed h → ¬ registers c → mgr_startEv (fst (call c h)) = mgr_startEv h.
Proof.
  intros Hinst Hreg.
  destruct c as [[a|s a|s|s| |]|[S|s a|s a|a|a|a]]; simpl in *; try done.
  - by rewrite enterStage_eq.
  - destruct (decide (indexOf (Some s) (mgr_stages h)
                      < Z.of_nat (length (mgr_stages h)) - 1)).
    + by rewrite finishStage_next.
    + by rewrite finishStage_last.
  - by rewrite callPrompt_eq.
  - by rewrite callInput_eq.
  - by rewrite trigger_eq.
Qed.

Lemma run_mgr_startEv (cs : list (Call A)) h :
  installed h → Forall (λ c, ¬ registers c) cs →
  mgr_startEv (fst (run cs h)) = mgr_startEv h.
Proof.
  intros Hinst Hcs.
  enough (Hgoal : (installed (fst (run cs h)) ∧
                   mgr_startEv (fst (run cs h)) = mgr_startEv h) ∧ True)
    by (by destruct Hgoal as [[_ ?] _]).
  apply (run_ind (λ c, ¬ registers c)
           (λ h', installed h' ∧ mgr_startEv h' = mgr_startEv h)
           (λ _, True)); try done.
  intros c h' Hc [Hinst' Heq]. repeat split.
  - by apply installed_call.
  - by rewrite call_mgr_startEv.
Qed.

Lemma run_definition_mgr_startEv (transAction : TransitionDefinition A) h :
  installed h →
  mgr_startEv (fst (run (map Mgr transAction) h)) =
  mgr_startEv h ++ registrations transAction.
Proof.
  revert h. induction transAction as [|c cs IH]; intros h Hinst.
  - simpl. by rewrite app_nil_r.
  - rewrite map_cons, run_cons. simpl fst.
    rewrite IH by (by apply (installed_call (Mgr c))).
    destruct c as [a|s a|s|s| |];
      try (unfold registrations; simpl; unfold KEvent.add;
           by rewrite <- app_assoc);
      match goal with
      | |- context [manager_call ?c h] =>
          change (manager_call c h) with (call (Mgr c) h);
          rewrite (call_mgr_startEv (Mgr c)) by (done || by simpl; tauto)
      end; done.
Qed.

(** C8: [createTransition] calls the transition definition once, on the
    state in which the channels are new and the listener is subscribed, and
    before it returns; the subscriptions the definition makes are then the
    handlers of [stageManager.startEv], each once.  No call on the stage
    manager or on the handle calls the definition again, and calls other than
    [onStart] and [defineStage] leave its subscriptions as they are. *)
Theorem definition_called_once_at_construction
    (transAction : TransitionDefinition A) (cs : list (Call A)) :
  (createTransition transAction =
     call_definition transAction (set_mgr_endEv [HAdvance] fresh))
  ∧ (∃ t, snd (createTransition transAction) = DefinitionCalled :: t
          ∧ (DefinitionCalled ∉ t))
  ∧ (mgr_startEv (fst (createTransition transAction)) =
       registrations transAction)
  ∧ (DefinitionCalled ∉ snd (run cs (fst (createTransition transAction))))
  ∧ (Forall (λ c, ¬ registers c) cs →
     mgr_startEv (handle_after transAction cs) = registrations transAction).
Proof.
  assert (Hreg : mgr_startEv (fst (createTransition transAction)) =
                 registrations transAction).
  { rewrite createTransition_eq. simpl.
    by rewrite run_definition_mgr_startEv. }
  split; [|split; [|split; [|split]]].
  - unfold createTransition, seq, modify. simpl.
    by destruct (call_definition _ _).
  - rewrite createTransition_eq. simpl. eexists. split; [done|].
    apply run_not_DefinitionCalled.
  - done.
  - apply run_not_DefinitionCalled.
  - intros Hcs. unfold handle_after.
    rewrite run_mgr_startEv; [done| |done].
    apply installed_createTransition.
Qed.

(** *** The shape of traces *)

Lemma internal_start_Forall x h :
  Forall (λ e, is_internal e = true) (internal_start x h).
Proof.
  rewrite internal_start_flat_map.
  induction (mgr_startEv h) as [|hd l IH]; simpl; [done|].
  apply Forall_app. split; [|done].
  destruct hd; simpl; repeat case_decide; simpl; by repeat constructor.
Qed.

Lemma run_StageFilter_Forall ran x (l : list (StageFilter A)) h :
  (∀ s a, is_external (ran s a) = true) →
  Forall (λ e, is_external e = true)
    (snd (KEvent.trigger (run_StageFilter ran x) l h)).
Proof.
  intros Hran.
  rewrite trigger_pure by (intros; apply run_StageFilter_state). simpl.
  induction l as [|f l IH]; simpl; [done|].
  apply Forall_app. split; [|done].
  unfold run_StageFilter. case_decide; simpl; by repeat constructor.
Qed.

Lemma external_start_Forall x h :
  Forall (λ e, is_external e = true) (external_start x h).
Proof. by apply run_StageFilter_Forall. Qed.

Lemma external_end_Forall x h :
  Forall (λ e, is_external e = true) (external_end x h).
Proof. by apply run_StageFilter_Forall. Qed.

Lemma filter_Forall_nil {B : Type} (f g : B → bool) (l : list B) :
  Forall (λ e, f e = true) l → (∀ e, f e = true → g e = false) →
  List.filter g l = [].
Proof.
  intros Hl Hfg. induction Hl as [|e l He _ IH]; simpl; [done|].
  by rewrite (Hfg e He).
Qed.

(** *** Which stages are entered, and when *)

Lemma stage_calls_app (t1 t2 : Trace A) :
  stage_calls (t1 ++ t2) = stage_calls t1 ++ stage_calls t2.
Proof. apply List.filter_app. Qed.

Lemma stage_calls_internal x h : stage_calls (internal_start x h) = [].
Proof.
  eapply filter_Forall_nil; [apply internal_start_Forall|].
  by intros [].
Qed.

Lemma stage_calls_external_start x h :
  stage_calls (external_start x h) = [].
Proof.
  eapply filter_Forall_nil; [apply external_start_Forall|].
  by intros [].
Qed.

Lemma stage_calls_external_end x h : stage_calls (external_end x h) = [].
Proof.
  eapply filter_Forall_nil; [apply external_end_Forall|].
  by intros [].
Qed.

Lemma stage_calls_enterStage x h :
  stage_calls (snd (enterStage x h)) = [Entered x].
Proof.
  rewrite enterStage_eq. simpl. unfold stage_calls. simpl.
  fold (stage_calls (internal_start x h ++ external_start x h)).
  by rewrite stage_calls_app, stage_calls_internal,
    stage_calls_external_start.
Qed.

Lemma stage_calls_finishStage (s : TransitionStage) h :
  installed h →
  stage_calls (snd (finishStage (Some s) h)) = finish_calls (mgr_stages h) s.
Proof.
  intros Hinst. unfold finish_calls. case_bool_decide as Hlt.
  - rewrite finishStage_next by done. simpl. unfold stage_calls. simpl.
    f_equal. rewrite List.filter_app.
    fold (stage_calls (snd (enterStage
      (mgr_stages h !! Z.to_nat (indexOf (Some s) (mgr_stages h) + 1)) h))).
    fold (stage_calls (external_end (Some s) h)).
    by rewrite stage_calls_enterStage, stage_calls_external_end.
  - rewrite finishStage_last by done. simpl. unfold stage_calls. simpl.
    f_equal. eapply (filter_Forall_nil is_external).
    + apply Forall_forall. intros e Hin.
      apply list_elem_of_fmap in Hin as (a & -> & _). done.
    + by intros [].
Qed.

Lemma finishStage_mgr_stages x h :
  installed h → mgr_stages (fst (finishStage x h)) = mgr_stages h.
Proof.
  intros Hinst.
  destruct (decide (indexOf x (mgr_stages h)
                    < Z.of_nat (length (mgr_stages h)) - 1)).
  - by rewrite finishStage_next.
  - by rewrite finishStage_last.
Qed.

Lemma stage_calls_finishes (fs : list TransitionStage) h :
  installed h →
  stage_calls (snd (run (map (λ s, Mgr (FinishStage s)) fs) h)) =
  flat_map (finish_calls (mgr_stages h)) fs.
Proof.
  revert h. induction fs as [|s fs IH]; intros h Hinst; [done|].
  rewrite map_cons, run_cons. simpl snd. rewrite stage_calls_app.
  simpl call. rewrite stage_calls_finishStage by done.
  rewrite IH by (by apply (installed_call (Mgr (FinishStage s)))).
  by rewrite finishStage_mgr_stages.
Qed.

(** The stage calls of a driven run. *)
Lemma stage_calls_drive (S fs : list TransitionStage) h :
  installed h →
  stage_calls (snd (run (drive S fs) h)) =
  Entered (S !! 0%nat) :: flat_map (finish_calls S) fs.
Proof.
  intros Hinst. unfold drive. rewrite run_cons. simpl snd.
  rewrite stage_calls_app. simpl call.
  rewrite stage_calls_finishes
    by (by apply (installed_call (Trans (Trigger S)))).
  rewrite !trigger_eq. simpl fst. simpl snd.
  by rewrite stage_calls_enterStage.
Qed.

(** An [Entered] among the stage calls of [finishStage] calls comes right
    after the [Finished] of the call whose listener made it. *)
Lemma finish_calls_split (S fs : list TransitionStage) (t1 t2 : Trace A) y :
  flat_map (finish_calls S) fs = t1 ++ Entered y :: t2 →
  ∃ t0 s, t1 = t0 ++ [Finished (Some s)] ∧
          indexOf (Some s) S < Z.of_nat (length S) - 1 ∧
          y = S !! Z.to_nat (indexOf (Some s) S + 1).
Proof.
  revert t1. induction fs as [|s fs IH]; intros t1 Hsplit; simpl in Hsplit.
  - by destruct t1.
  - unfold finish_calls at 1 in Hsplit. case_bool_decide as Hlt.
    + destruct t1 as [|e1 [|e2 t1]]; simpl in Hsplit; [done|..].
      * injection Hsplit as <- <- _. by exists [], s.
      * injection Hsplit as <- <- Hrest.
        destruct (IH _ Hrest) as (t0 & s' & -> & Hlt' & Hy).
        exists (Finished (Some s) :: Entered
                  (S !! Z.to_nat (indexOf (Some s) S + 1)) :: t0), s'.
        done.
    + destruct t1 as [|e1 t1]; simpl in Hsplit; [done|].
      injection Hsplit as <- Hrest.
      destruct (IH _ Hrest) as (t0 & s' & -> & Hlt' & Hy).
      by exists (Finished (Some s) :: t0), s'.
Qed.

(** C7: in a run driven with [trigger(S)] and then [finishStage] calls, in
    whatever state the handle was, a stage is entered either by [trigger]
    (the first stage, first of all) or by the listener during the dispatch
    of a [finishStage(x)], right after that call was made; the stage then
    entered is the one at the position after the (first) position of [x],
    so that a stage at a position [i + 1] is entered only by the stage-end
    dispatch for the stage at position [i].  For pairwise distinct stages:
    a stage of [S] that has a predecessor in [S] is entered only right after
    the [finishStage] of that predecessor. *)
Theorem next_stage_only_after_finish (transAction : TransitionDefinition A)
    (cs : list (Call A)) (S fs : list TransitionStage) (t1 t2 : Trace A) y :
  stage_calls (snd (run (drive S fs) (handle_after transAction cs))) =
    t1 ++ Entered y :: t2 →
  (t1 = [] ∧ y = S !! 0%nat)
  ∨ (∃ (t0 : Trace A) (x : TransitionStage),
       let p := Z.to_nat (indexOf (Some x) S + 1) in
       t1 = t0 ++ [Finished (Some x)]
       ∧ y = S !! p ∧ (p < length S)%nat
       ∧ (∀ i, p = Datatypes.S i → S !! i = Some x)
       ∧ (NoDup S → ∀ i, S !! Datatypes.S i = y → S !! i = Some x)).
Proof.
  rewrite stage_calls_drive by apply installed_handle_after.
  intros Hsplit. destruct t1 as [|e t1]; simpl in Hsplit.
  { left. by injection Hsplit as <-. }
  right. injection Hsplit as <- Hrest.
  destruct (finish_calls_split _ _ _ _ _ Hrest) as (t0 & x & -> & Hlt & Hy).
  exists (Entered (S !! 0%nat) :: t0), x. simpl.
  pose proof (indexOf_range (Some x) S) as Hrange.
  assert (Hpos : ∀ i, Z.to_nat (indexOf (Some x) S + 1) = Datatypes.S i →
                      S !! i = Some x).
  { intros i Hi. assert (Hidx : indexOf (Some x) S = Z.of_nat i) by lia.
    rewrite <- (indexOf_found (Some x) S) by lia.
    by rewrite Hidx, Nat2Z.id. }
  repeat split; [done|lia|done|].
  intros Hnd i Hi. apply Hpos.
  destruct (lookup_lt_is_Some_2 S (Z.to_nat (indexOf (Some x) S + 1)))
    as [v Hv]; [lia|].
  rewrite Hy, Hv in Hi. by eapply NoDup_lookup.
Qed.

(** *** Stage behaviours *)

Section Behaviours.
Context `{!EqDecision A}.

Lemma count_RanStage_internal (s : TransitionStage) (a : A) x h :
  count (RanStage s a) (internal_start x h) =
  if decide (x = Some s) then count (HDefineStage s a) (mgr_startEv h)
  else 0%nat.
Proof.
  rewrite internal_start_flat_map.
  induction (mgr_startEv h) as [|hd l IH]; simpl; [by case_decide|].
  rewrite count_app, IH. clear IH.
  rewrite (count_cons (HDefineStage s a)).
  destruct hd as [a'|s' a']; simpl run_StartHandler.
  - rewrite (decide_False (P := HOnStart a' = _)) by done.
    destruct (decide (x = mgr_stages h !! 0%nat)); simpl snd;
      rewrite ?count_cons, ?count_nil, ?decide_False by done;
      by case_decide.
  - destruct (decide (x = Some s')) as [->|Hne]; simpl snd;
      rewrite ?count_cons, ?count_nil;
      repeat case_decide; simplify_eq; done.
Qed.

Lemma count_internal_enterStage (e : Event A) x h :
  is_internal e = true →
  count e (snd (enterStage x h)) = count e (internal_start x h).
Proof.
  intros He. rewrite enterStage_eq. simpl.
  rewrite count_cons, count_app.
  rewrite (count_Forall_0 is_external e (external_start x h));
    [|apply external_start_Forall|by destruct e].
  rewrite decide_False by (by destruct e). lia.
Qed.

Lemma count_Entered_enterStage x' x h :
  count (Entered x') (snd (enterStage x h)) =
  if decide (x = x') then 1%nat else 0%nat.
Proof.
  rewrite enterStage_eq. simpl. rewrite count_cons, count_app.
  rewrite (count_Forall_0 is_internal _ (internal_start x h));
    [|apply internal_start_Forall|done].
  rewrite (count_Forall_0 is_external _ (external_start x h));
    [|apply external_start_Forall|done].
  repeat case_decide; simplify_eq; done.
Qed.

(** Whatever is called: a behaviour registered [k] times runs [k] times
    for each entry of its stage. *)
Lemma call_behaviour (s : TransitionStage) (a : A) (k : nat)
    (c : Call A) h :
  c ≠ Mgr (DefineStage s a) →
  installed h ∧ count (HDefineStage s a) (mgr_startEv h) = k →
  (installed (fst (call c h)) ∧
   count (HDefineStage s a) (mgr_startEv (fst (call c h))) = k) ∧
  count (RanStage s a) (snd (call c h)) =
  (count (Entered (Some s)) (snd (call c h)) * k)%nat.
Proof.
  intros Hc [Hinst Hk].
  assert (Henter : ∀ x h', mgr_startEv h' = mgr_startEv h →
    count (RanStage s a) (snd (enterStage x h')) =
    (count (Entered (Some s)) (snd (enterStage x h')) * k)%nat).
  { intros x h' Heq. rewrite count_internal_enterStage by done.
    rewrite count_RanStage_internal, count_Entered_enterStage, Heq, Hk.
    case_decide; lia. }
  split; [split; [by apply installed_call|]|].
  - destruct c as [[a'|s' a'|s'|s'| |]|c];
      try (rewrite call_mgr_startEv by (done || by simpl; tauto); done).
    + simpl. unfold KEvent.add. rewrite count_app, count_cons, count_nil.
      rewrite decide_False by done. lia.
    + simpl. unfold KEvent.add. rewrite count_app, count_cons, count_nil.
      rewrite decide_False by congruence. lia.
  - destruct c as [[a'|s' a'|s'|s'| |]|[S|s' a'|s' a'|a'|a'|a']]; simpl;
      try done.
    + by apply Henter.
    + destruct (decide (indexOf (Some s') (mgr_stages h)
                        < Z.of_nat (length (mgr_stages h)) - 1)).
      * rewrite finishStage_next by done. simpl.
        rewrite !count_cons, !count_app.
        rewrite !(count_Forall_0 is_external _ (external_end (Some s') h))
          by (apply external_end_Forall || done).
        rewrite !decide_False by done. rewrite Henter by done. lia.
      * rewrite finishStage_last by done. simpl.
        rewrite !count_cons, !count_map_0 by done.
        by rewrite !decide_False by done.
    + rewrite callPrompt_eq. simpl. by rewrite !count_map_0.
    + rewrite callInput_eq. simpl. by rewrite !count_map_0.
    + rewrite trigger_eq. simpl. by apply Henter.
Qed.

(** C5: an action registered once with [defineStage(stage, action)] runs
    once each time [enterStage] is called with that stage, whatever calls
    are made on the stage manager and the handle (any number of [trigger]s
    and runs, any position of the stage in a sequence), and stays registered,
    once, through all of them; in the run driven for a sequence [A, B, A]
    the behaviour of [A] runs twice. *)
Theorem defineStage_runs_on_every_entry
    (transAction : TransitionDefinition A) (cs cs' : list (Call A))
    (stage : TransitionStage) (action : A) :
  let h := handle_after transAction cs in
  count (HDefineStage stage action) (mgr_startEv h) = 1%nat →
  Forall (λ c, c ≠ Mgr (DefineStage stage action)) cs' →
  count (RanStage stage action) (snd (run cs' h)) =
    count (Entered (Some stage)) (snd (run cs' h))
  ∧ count (HDefineStage stage action) (mgr_startEv (fst (run cs' h))) = 1%nat
  ∧ (∀ other, other ≠ stage →
       count (RanStage stage action)
         (snd (run (drive [stage; other; stage] [stage; other; stage]) h))
       = 2%nat).
Proof.
  intros h Hone Hcs'.
  assert (Hinst : installed h) by apply installed_handle_after.
  assert (Hrun : ∀ cs1, Forall (λ c, c ≠ Mgr (DefineStage stage action)) cs1 →
    (installed (fst (run cs1 h)) ∧
     count (HDefineStage stage action) (mgr_startEv (fst (run cs1 h))) = 1%nat)
    ∧ count (RanStage stage action) (snd (run cs1 h)) =
      (count (Entered (Some stage)) (snd (run cs1 h)) * 1)%nat).
  { intros cs1 Hcs1.
    apply (run_ind (λ c, c ≠ Mgr (DefineStage stage action))
             (λ h', installed h' ∧
                    count (HDefineStage stage action) (mgr_startEv h') = 1%nat)
             (λ t, count (RanStage stage action) t =
                   (count (Entered (Some stage)) t * 1)%nat)); try done.
    - intros t1 t2 H1 H2. rewrite !count_app. lia.
    - intros c h' Hc Hh'. by apply call_behaviour. }
  destruct (Hrun cs' Hcs') as [[_ Hkeep] Hcount].
  split; [lia|split; [done|]].
  intros other Hother.
  destruct (Hrun (drive [stage; other; stage] [stage; other; stage]))
    as [_ ->].
  { unfold drive. by repeat constructor. }
  rewrite Nat.mul_1_r.
  assert (Hcalls : ∀ t : Trace A,
    count (Entered (Some stage)) t = count (Entered (Some stage))
                                       (stage_calls t)).
  { intros t. induction t as [|e t IH]; [done|].
    unfold stage_calls in *. simpl. rewrite count_cons, IH.
    destruct e; simpl; rewrite ?count_cons; try done;
      by rewrite decide_False by done. }
  rewrite Hcalls, stage_calls_drive by done. simpl.
  unfold finish_calls, indexOf. simpl.
  rewrite !decide_True by done.
  rewrite (decide_False (P := Some other = Some stage)) by congruence.
  rewrite !decide_True by done. simpl.
  rewrite !count_cons, count_nil.
  rewrite !decide_True by done.
  rewrite !decide_False by congruence. done.
Qed.

(** *** onStart *)

Lemma count_RanOnStart_internal (a : A) x h :
  count (RanOnStart a) (internal_start x h) =
  if decide (x = mgr_stages h !! 0%nat)
  then count (HOnStart a) (mgr_startEv h) else 0%nat.
Proof.
  rewrite internal_start_flat_map.
  induction (mgr_startEv h) as [|hd l IH]; simpl; [by case_decide|].
  rewrite count_app, IH. clear IH.
  rewrite (count_cons (HOnStart a)).
  destruct hd as [a'|s' a']; simpl run_StartHandler.
  - destruct (decide (x = mgr_stages h !! 0%nat)); simpl snd;
      rewrite ?count_cons, ?count_nil;
      repeat case_decide; simplify_eq; done.
  - rewrite (decide_False (P := HDefineStage s' a' = _)) by done.
    destruct (decide (x = Some s')); simpl snd;
      rewrite ?count_cons, ?count_nil, ?decide_False by done;
      by case_decide.
Qed.

Lemma count_RanOnStart_enterStage (a : A) x h :
  count (RanOnStart a) (snd (enterStage x h)) =
  if decide (x = mgr_stages h !! 0%nat)
  then count (HOnStart a) (mgr_startEv h) else 0%nat.
Proof.
  rewrite count_internal_enterStage by done. apply count_RanOnStart_internal.
Qed.

Lemma count_RanOnStart_trigger (a : A) S h :
  count (RanOnStart a) (snd (trigger S h)) =
  count (HOnStart a) (mgr_startEv h).
Proof.
  rewrite trigger_eq. simpl snd. rewrite count_RanOnStart_enterStage.
  simpl. by rewrite decide_True.
Qed.

(** Finishing a stage of a sequence whose first stage does not recur runs
    no [onStart] action. *)
Lemma count_RanOnStart_finishStage (a : A) (first s : TransitionStage)
    (rest : list TransitionStage) h :
  installed h → mgr_stages h = first :: rest → first ∉ rest →
  s ∈ first :: rest →
  count (RanOnStart a) (snd (finishStage (Some s) h)) = 0%nat.
Proof.
  intros Hinst Hstages Hfirst Hs.
  pose proof (indexOf_present s _ Hs) as Hidx.
  destruct (decide (indexOf (Some s) (mgr_stages h)
                    < Z.of_nat (length (mgr_stages h)) - 1)) as [Hlt|Hge].
  - rewrite finishStage_next by done. simpl snd.
    rewrite count_cons, count_app, decide_False by done.
    rewrite (count_Forall_0 is_external _ (external_end (Some s) h))
      by (apply external_end_Forall || done).
    rewrite count_RanOnStart_enterStage, decide_False; [done|].
    rewrite Hstages in *. simpl.
    replace (Z.to_nat (indexOf (Some s) (first :: rest) + 1))
      with (Datatypes.S (Z.to_nat (indexOf (Some s) (first :: rest))))
      by lia.
    simpl. intros Hlook. apply Hfirst. by eapply list_elem_of_lookup_2.
  - rewrite finishStage_last by done. simpl snd.
    by rewrite count_cons, count_map_0, decide_False.
Qed.

Lemma count_RanOnStart_finishes (a : A) (first : TransitionStage)
    (rest fs : list TransitionStage) h :
  installed h → mgr_stages h = first :: rest → first ∉ rest →
  Forall (λ s, s ∈ first :: rest) fs →
  count (RanOnStart a)
    (snd (run (map (λ s, Mgr (FinishStage s)) fs) h)) = 0%nat.
Proof.
  intros Hinst Hstages Hfirst Hfs. revert h Hinst Hstages.
  induction Hfs as [|s fs Hs _ IH]; intros h Hinst Hstages; [done|].
  rewrite map_cons, run_cons. simpl snd. rewrite count_app. simpl call.
  rewrite (count_RanOnStart_finishStage a first s rest) by done.
  rewrite IH; [done| |].
  - by apply (installed_call (Mgr (FinishStage s))).
  - by rewrite finishStage_mgr_stages.
Qed.

(** C4 (amended): an action registered once with [onStart] runs once when
    [enterStage] is called with a stage equal to the first of the current
    sequence, and not when it is called with another.  So it runs once in
    every [trigger], whatever the sequence (also one with another first
    stage); and when the first stage of the sequence does not occur again
    in it, no [finishStage] for a stage of the sequence runs it: it runs
    once per run, on the entry of the first stage. *)
Theorem onStart_runs_when_first_stage_is_entered
    (transAction : TransitionDefinition A) (cs : list (Call A))
    (action : A) (first : TransitionStage)
    (rest fs S2 : list TransitionStage) :
  let h := handle_after transAction cs in
  let h1 := fst (trigger (first :: rest) h) in
  let h2 := fst (run (map (λ s, Mgr (FinishStage s)) fs) h1) in
  count (HOnStart action) (mgr_startEv h) = 1%nat →
  first ∉ rest →
  Forall (λ s, s ∈ first :: rest) fs →
  (∀ x, count (RanOnStart action) (snd (enterStage x h)) =
        if decide (x = mgr_stages h !! 0%nat) then 1%nat else 0%nat)
  ∧ count (RanOnStart action) (snd (trigger (first :: rest) h)) = 1%nat
  ∧ count (RanOnStart action)
      (snd (run (map (λ s, Mgr (FinishStage s)) fs) h1)) = 0%nat
  ∧ count (RanOnStart action) (snd (run (drive (first :: rest) fs) h))
      = 1%nat
  ∧ count (RanOnStart action) (snd (trigger S2 h2)) = 1%nat.
Proof.
  intros h h1 h2 Hone Hfirst Hfs.
  assert (Hinst : installed h) by apply installed_handle_after.
  assert (Hinst1 : installed h1)
    by apply (installed_call (Trans (Trigger (first :: rest)))), Hinst.
  assert (Hstages1 : mgr_stages h1 = first :: rest).
  { subst h1. by rewrite trigger_eq. }
  assert (Hfinishes : count (RanOnStart action)
            (snd (run (map (λ s, Mgr (FinishStage s)) fs) h1)) = 0%nat)
    by (by apply (count_RanOnStart_finishes action first rest)).
  split; [|split; [|split; [|split]]].
  - intros x. rewrite count_RanOnStart_enterStage, Hone. done.
  - by rewrite count_RanOnStart_trigger.
  - done.
  - unfold drive. rewrite run_cons. simpl snd. rewrite count_app.
    simpl call. fold h1. rewrite Hfinishes.
    rewrite count_RanOnStart_trigger. lia.
  - rewrite count_RanOnStart_trigger. subst h2.
    rewrite run_mgr_startEv; [|done|].
    + subst h1. by rewrite trigger_eq.
    + apply Forall_forall. intros c Hc.
      apply list_elem_of_fmap in Hc as (s & -> & _). simpl. tauto.
Qed.

End Behaviours.

(** *** The end of a transition *)

Lemma internal_start_not_external x h :
  Forall (λ e, is_external e = false) (internal_start x h).
Proof.
  eapply Forall_impl; [apply internal_start_Forall|]. by intros [].
Qed.

Lemma enterStage_not_external x h :
  startEv h = [] → Forall (λ e, is_external e = false) (snd (enterStage x h)).
Proof.
  intros Hnil. rewrite enterStage_eq. simpl.
  rewrite external_start_nil, app_nil_r by done.
  constructor; [done|apply internal_start_not_external].
Qed.

(** With nothing subscribed on the outer channels, a call that does not
    subscribe leaves them empty and calls no outer subscriber. *)
Lemma call_outer_channels_empty (c : Call A) h :
  ¬ subscribes c →
  installed h ∧ outer_channels_empty h →
  (installed (fst (call c h)) ∧ outer_channels_empty (fst (call c h))) ∧
  Forall (λ e, is_external e = false) (snd (call c h)).
Proof.
  intros Hc [Hinst (Hs & He & Hp & Hi & Ht)].
  split; [split; [by apply installed_call|]|].
  - destruct c as [[a|s a|s|s| |]|[S|s a|s a|a|a|a]]; simpl in *; try done.
    + by rewrite enterStage_eq.
    + destruct (decide (indexOf (Some s) (mgr_stages h)
                        < Z.of_nat (length (mgr_stages h)) - 1)).
      * by rewrite finishStage_next.
      * by rewrite finishStage_last.
    + by rewrite callPrompt_eq.
    + by rewrite callInput_eq.
    + by rewrite trigger_eq.
  - destruct c as [[a|s a|s|s| |]|[S|s a|s a|a|a|a]]; simpl in *; try done.
    + by apply enterStage_not_external.
    + destruct (decide (indexOf (Some s) (mgr_stages h)
                        < Z.of_nat (length (mgr_stages h)) - 1)).
      * rewrite finishStage_next by done. simpl.
        rewrite external_end_nil, app_nil_r by done.
        constructor; [done|by apply enterStage_not_external].
      * rewrite finishStage_last by done. simpl. rewrite Ht.
        by repeat constructor.
    + rewrite callPrompt_eq. simpl. by rewrite Hp.
    + rewrite callInput_eq. simpl. by rewrite Hi.
    + rewrite trigger_eq. simpl. by apply enterStage_not_external.
Qed.

(** C2 (amended): [finishStage] for the stage whose position is the last of
    the sequence calls the transition-end subscribers, each once and in
    order, and after that leaves the five outer channels (stage-start,
    stage-end, prompt-time, input-prompt-time, transition-end) empty and the
    camera paused and hidden.  The two channels of the stage manager are
    kept as they are.  From then on, as long as nobody subscribes anew, no
    call on the stage manager or the handle runs a subscriber of an outer
    channel. *)
Theorem last_finish_clears_outer_channels
    (transAction : TransitionDefinition A) (cs cs' : list (Call A))
    (stage : TransitionStage) :
  let h := handle_after transAction cs in
  let h' := fst (finishStage (Some stage) h) in
  mgr_stages h ≠ [] →
  indexOf (Some stage) (mgr_stages h) = Z.of_nat (length (mgr_stages h)) - 1 →
  Forall (λ c, ¬ subscribes c) cs' →
  transition_ends (snd (finishStage (Some stage) h)) = endTransEv h
  ∧ outer_channels_empty h'
  ∧ camera_paused h' = true ∧ camera_hidden h' = true
  ∧ mgr_startEv h' = mgr_startEv h ∧ mgr_endEv h' = [HAdvance]
  ∧ mgr_stages h' = mgr_stages h
  ∧ outer_channels_empty (fst (run cs' h'))
  ∧ Forall (λ e, is_external e = false) (snd (run cs' h')).
Proof.
  intros h h' Hne Hlast Hcs'. subst h'.
  assert (Hinst : installed h) by apply installed_handle_after.
  rewrite finishStage_last by (done || lia). simpl fst. simpl snd.
  assert (Hends : ∀ l : list A,
            transition_ends (map RanTransitionEnd l) = l).
  { induction l as [|a l IH]; [done|]. unfold transition_ends. simpl.
    f_equal. apply IH. }
  change (transition_ends (Finished (Some stage) ::
                           map RanTransitionEnd (endTransEv h)))
    with (transition_ends (map RanTransitionEnd (endTransEv h))).
  rewrite Hends.
  assert (Hrun : (installed (fst (run cs' (torn_down h))) ∧
                  outer_channels_empty (fst (run cs' (torn_down h)))) ∧
                 Forall (λ e, is_external e = false)
                   (snd (run cs' (torn_down h)))).
  { apply (run_ind (λ c, ¬ subscribes c)
             (λ h1, installed h1 ∧ outer_channels_empty h1)
             (λ t, Forall (λ e, is_external e = false) t)); try done.
    - intros t1 t2 H1 H2. by apply Forall_app.
    - intros c h1 Hc Hh1. by apply call_outer_channels_empty. }
  destruct Hrun as [[_ Hempty] Hquiet].
  split; [done|]. split; [done|]. by repeat (split; [done|]).
Qed.

(** *** finishStage for a stage that the sequence does not hold *)

(** C3: on a non-empty sequence, [finishStage] for a stage that is not in it
    is not ignored: [indexOf] is [-1], which is less than the last index, so
    the listener enters the stage at index [-1 + 1]: the first stage is
    entered again, with its behaviours, the [onStart] actions and the
    stage-start subscribers, and the stage-end subscribers of the unknown
    stage run after that. *)
Theorem finishStage_unknown_stage_enters_first_again
    (transAction : TransitionDefinition A) (cs : list (Call A))
    (stage first : TransitionStage) (rest : list TransitionStage) :
  let h := handle_after transAction cs in
  mgr_stages h = first :: rest →
  stage ∉ first :: rest →
  finishStage (Some stage) h =
  (h, Finished (Some stage) ::
      snd (enterStage (Some first) h) ++ external_end (Some stage) h)
  ∧ stage_calls (snd (finishStage (Some stage) h)) =
      [Finished (Some stage); Entered (Some first)].
Proof.
  intros h Hstages Hnotin.
  assert (Hinst : installed h) by apply installed_handle_after.
  assert (Hidx : indexOf (Some stage) (mgr_stages h) = -1).
  { destruct (decide (indexOf (Some stage) (mgr_stages h) = -1)); [done|].
    exfalso. apply Hnotin. rewrite <- Hstages.
    eapply list_elem_of_lookup_2. by apply indexOf_found. }
  assert (Hlt : indexOf (Some stage) (mgr_stages h)
                < Z.of_nat (length (mgr_stages h)) - 1).
  { rewrite Hidx, Hstages. simpl. lia. }
  split.
  - rewrite finishStage_next by done. by rewrite Hidx, Hstages.
  - rewrite stage_calls_finishStage by done. unfold finish_calls.
    rewrite bool_decide_eq_true_2 by done. by rewrite Hidx, Hstages.
Qed.

End WithActions.

(** *** The scenario, run *)

Import Scenario.

Lemma seen_app (t1 t2 : Trace Probe) : seen (t1 ++ t2) = seen t1 ++ seen t2.
Proof. apply omap_app. Qed.

Lemma seen_internal x (h : Handle Probe) : seen (internal_start x h) = [].
Proof.
  pose proof (internal_start_Forall x h) as Hall.
  induction Hall as [|e t He _ IH]; [done|]. by destruct e.
Qed.

Lemma seen_external_start (s : TransitionStage) (h : Handle Probe) :
  startEv h = startEv subscribed →
  seen (external_start (Some s) h) = [StageStart s].
Proof.
  intros Heq. unfold external_start, triggerOn.
  rewrite trigger_pure by (intros; apply run_StageFilter_state).
  rewrite Heq. by destruct s.
Qed.

Lemma seen_external_end (s : TransitionStage) (h : Handle Probe) :
  endEv h = endEv subscribed →
  seen (external_end (Some s) h) = [StageEnd s].
Proof.
  intros Heq. unfold external_end, triggerOn.
  rewrite trigger_pure by (intros; apply run_StageFilter_state).
  rewrite Heq. by destruct s.
Qed.

Lemma seen_enterStage (s : TransitionStage) (h : Handle Probe) :
  startEv h = startEv subscribed →
  seen (snd (enterStage (Some s) h)) = [StageStart s].
Proof.
  intros Heq. rewrite enterStage_eq. simpl snd.
  change (seen (Entered (Some s) :: ?t)) with (seen t).
  by rewrite seen_app, seen_internal, seen_external_start.
Qed.

(** Finishing, in order, the stages from some position of the sequence to
    its end. *)
Lemma seen_finishes (pre : list TransitionStage) (s : TransitionStage)
    (rest : list TransitionStage) (h : Handle Probe) :
  wired h → mgr_stages h = pre ++ s :: rest → NoDup (pre ++ s :: rest) →
  seen (snd (run (map (λ s, Mgr (FinishStage s)) (s :: rest)) h)) =
  seen_from s rest.
Proof.
  revert pre s h. induction rest as [|next rest IH];
    intros pre s h (Hinst & Hstart & Hend & Htrans) Hstages Hnd.
  - rewrite map_cons, run_cons. simpl call.
    assert (Hidx : indexOf (Some s) (mgr_stages h) = Z.of_nat (length pre)).
    { rewrite Hstages. apply indexOf_NoDup; [done|].
      by rewrite list_lookup_middle. }
    rewrite finishStage_last; [|done|].
    + cbn [fst snd map run]. rewrite Htrans. reflexivity.
    + rewrite Hidx, Hstages, length_app. simpl. lia.
  - rewrite map_cons, run_cons. simpl call.
    assert (Hidx : indexOf (Some s) (mgr_stages h) = Z.of_nat (length pre)).
    { rewrite Hstages. apply indexOf_NoDup; [done|].
      by rewrite list_lookup_middle. }
    assert (Hnext : mgr_stages h !! Z.to_nat (Z.of_nat (length pre) + 1)
                    = Some next).
    { rewrite Hstages.
      replace (Z.to_nat (Z.of_nat (length pre) + 1))
        with (length pre + 1)%nat by lia.
      rewrite lookup_app_r by lia.
      by replace (length pre + 1 - length pre)%nat with 1%nat by lia. }
    rewrite finishStage_next; [|done|].
    + cbn [fst snd]. rewrite Hidx, Hnext.
      rewrite <- app_comm_cons.
      change (seen (Finished (Some s) :: ?t)) with (seen t).
      rewrite !seen_app, seen_enterStage, seen_external_end by done.
      rewrite (IH (pre ++ [s]) next h); [done|done| |].
      * by rewrite <- app_assoc.
      * by rewrite <- app_assoc.
    + rewrite Hidx, Hstages, length_app. simpl. lia.
Qed.

Lemma wired_subscribed : wired subscribed.
Proof. split; [apply installed_handle_after|done]. Qed.

Lemma wired_trigger (S : list TransitionStage) (h : Handle Probe) :
  wired h → wired (fst (trigger S h)).
Proof.
  intros (Hinst & Hstart & Hend & Htrans). rewrite trigger_eq.
  by repeat split.
Qed.

Lemma seen_from_stage_ends (s : TransitionStage)
    (rest : list TransitionStage) :
  count TransitionEnd (seen_from s rest) = 1%nat
  ∧ (∀ x, count (StageEnd x) (seen_from s rest)
          = count x (removelast (s :: rest)))
  ∧ (∀ x, count (StageStart x) (seen_from s rest) = count x rest).
Proof.
  revert s. induction rest as [|next rest IH]; intros s.
  - by repeat split.
  - destruct (IH next) as (Hte & Hends & Hstarts).
    change (seen_from s (next :: rest))
      with (StageStart next :: StageEnd s :: seen_from next rest).
    change (removelast (s :: next :: rest))
      with (s :: removelast (next :: rest)).
    split; [|split].
    + by rewrite !count_cons, Hte.
    + intros x. rewrite !count_cons, Hends.
      rewrite (decide_False (P := StageStart next = _)) by done.
      repeat case_decide; simplify_eq; done.
    + intros x. rewrite !count_cons, Hstarts.
      rewrite (decide_False (P := StageEnd s = _)) by done.
      repeat case_decide; simplify_eq; done.
Qed.

(** C1: what the code does for a sequence of pairwise distinct stages, on a
    handle with a subscriber on stage-start and on stage-end of every stage
    and one on transition-end, driven with [trigger] and then [finishStage]
    for each stage in order.  The subscribers see the start of the first
    stage; then, for each stage but the last, the start of the next stage
    and only after it the end of the stage itself; then the end of the
    transition.  For [n] stages that is [n] stage-starts, [n - 1] stage-ends
    and one transition-end: the end of the last stage is never seen.
    ([finishStage] triggers the channel of the listener before the outer
    one, and the listener has cleared the outer channel by then.) *)
Theorem subscribers_never_see_the_last_stage_end
    (first : TransitionStage) (rest : list TransitionStage) :
  let S := first :: rest in
  let saw := seen (snd (run (drive S S) subscribed)) in
  NoDup S →
  saw = StageStart first :: seen_from first rest
  ∧ (∀ x, x ∈ S → count (StageStart x) saw = 1%nat)
  ∧ (∀ x, x ∈ removelast S → count (StageEnd x) saw = 1%nat)
  ∧ count (StageEnd (List.last S first)) saw = 0%nat
  ∧ count TransitionEnd saw = 1%nat.
Proof.
  intros S saw Hnd. subst S.
  assert (Hsaw : saw = StageStart first :: seen_from first rest).
  { subst saw. unfold drive. rewrite run_cons.
    cbn [fst snd call transition_call]. rewrite seen_app.
    pose proof (wired_trigger (first :: rest) _ wired_subscribed) as Hwired.
    rewrite (seen_finishes [] first rest _ Hwired);
      [|by rewrite trigger_eq|done].
    rewrite trigger_eq. cbn [fst snd].
    change ((first :: rest) !! 0%nat) with (Some first).
    rewrite seen_enterStage; [done|].
    by destruct Hwired as (_ & Hstart & _); rewrite trigger_eq in Hstart. }
  destruct (seen_from_stage_ends first rest) as (Hte & Hends & Hstarts).
  assert (Hcount : ∀ (x : TransitionStage) l,
            NoDup l → count x l = if decide (x ∈ l) then 1%nat else 0%nat).
  { intros x l Hl. induction Hl as [|y l Hy _ IH]; [done|].
    rewrite count_cons, IH. destruct (decide (y = x)) as [->|Hne].
    - rewrite decide_False by done. rewrite decide_True; [done|by left].
    - case_decide as Hin.
      + rewrite decide_True; [done|by right].
      + rewrite decide_False; [done|].
        intros [?|?]%elem_of_cons; [congruence|done]. }
  assert (Hsplit : first :: rest = removelast (first :: rest) ++
                                   [List.last (first :: rest) first])
    by (by apply app_removelast_last).
  assert (Hnd' : NoDup (removelast (first :: rest) ++
                        [List.last (first :: rest) first]))
    by (by rewrite <- Hsplit).
  apply NoDup_app in Hnd' as (Hnd1 & Hdisj & _).
  split; [done|]. rewrite Hsaw. split; [|split; [|split]].
  - intros x Hx. rewrite count_cons, Hstarts.
    apply NoDup_cons in Hnd as [Hfirst Hrest]. rewrite (Hcount x rest Hrest).
    apply elem_of_cons in Hx as [->|Hx].
    + rewrite decide_True by done. by rewrite decide_False.
    + rewrite decide_False by (intros [= ->]; done). by rewrite decide_True.
  - intros x Hx. rewrite count_cons, Hends, decide_False by done.
    rewrite (Hcount x _ Hnd1). by rewrite decide_True.
  - rewrite count_cons, Hends, decide_False by done.
    rewrite (Hcount _ _ Hnd1). rewrite decide_False; [done|].
    intros Hin. apply (Hdisj _ Hin). by left.
  - by rewrite count_cons, Hte.
Qed.

(** *** Instances *)

#[local] Ltac by_evaluation :=
  apply (bool_decide_unpack _); vm_compute; exact I.

Lemma subscribers_never_see_the_last_stage_end_witness :
  seen (snd (run (drive [prep; win] [prep; win]) subscribed)) =
  [StageStart prep; StageStart win; StageEnd prep; TransitionEnd].
Proof.
  apply (subscribers_never_see_the_last_stage_end prep [win]).
  by_evaluation.
Defined.

Lemma next_stage_only_after_finish_witness :
  stage_calls (snd (run (drive [prep; win] [prep]) subscribed)) =
    [Entered (Some prep); Finished (Some prep)] ++ [Entered (Some win)]
  ∧ (([Entered (Some prep); Finished (Some prep)] = ([] : Trace Probe)
      ∧ Some win = [prep; win] !! 0%nat)
     ∨ (∃ (t0 : Trace Probe) (x : TransitionStage),
          let p := Z.to_nat (indexOf (Some x) [prep; win] + 1) in
          [Entered (Some prep); Finished (Some prep)] =
            t0 ++ [Finished (Some x)]
          ∧ Some win = [prep; win] !! p ∧ (p < 2)%nat
          ∧ (∀ i, p = Datatypes.S i → [prep; win] !! i = Some x)
          ∧ (NoDup [prep; win] →
             ∀ i, [prep; win] !! Datatypes.S i = Some win →
                  [prep; win] !! i = Some x))).
Proof.
  split; [reflexivity|].
  apply (next_stage_only_after_finish definition subscribe [prep; win]
           [prep] [Entered (Some prep); Finished (Some prep)] []
           (Some win)).
  reflexivity.
Defined.

Lemma defineStage_runs_on_every_entry_witness :
  count (RanStage prep (Behaviour prep))
    (snd (run (drive [prep; win; prep] [prep; win; prep]) subscribed))
  = 2%nat.
Proof.
  apply (defineStage_runs_on_every_entry definition subscribe
           [] prep (Behaviour prep)).
  - reflexivity.
  - constructor.
  - discriminate.
Defined.

Lemma onStart_runs_when_first_stage_is_entered_witness :
  let h := handle_after definition subscribe in
  let h1 := fst (trigger [prep; win] h) in
  let h2 := fst (run (map (λ s, Mgr (FinishStage s)) [prep; win]) h1) in
  count (RanOnStart Started) (snd (run (drive [prep; win] [prep; win]) h))
    = 1%nat
  ∧ count (RanOnStart Started) (snd (trigger [lose] h2)) = 1%nat.
Proof.
  intros h h1 h2.
  destruct (onStart_runs_when_first_stage_is_entered definition subscribe
              Started prep [win] [prep; win] [lose])
    as (_ & _ & _ & Hrun & Hagain).
  - reflexivity.
  - by_evaluation.
  - by_evaluation.
  - split; [exact Hrun|exact Hagain].
Defined.

Lemma last_finish_clears_outer_channels_witness :
  let h := handle_after definition (subscribe ++ drive [prep] []) in
  let h' := fst (finishStage (Some prep) h) in
  mgr_stages h = [prep] ∧ endTransEv h = [Outer TransitionEnd]
  ∧ transition_ends (snd (finishStage (Some prep) h)) = endTransEv h
  ∧ outer_channels_empty h'
  ∧ Forall (λ e, is_external e = false)
      (snd (run [Mgr (EnterStage prep); Mgr (FinishStage prep)] h')).
Proof.
  intros h h'. split; [reflexivity|]. split; [reflexivity|].
  destruct (last_finish_clears_outer_channels definition
              (subscribe ++ drive [prep] [])
              [Mgr (EnterStage prep); Mgr (FinishStage prep)] prep)
    as (Hends & Hempty & _ & _ & _ & _ & _ & _ & Hquiet).
  - discriminate.
  - reflexivity.
  - repeat constructor; simpl; tauto.
  - split; [exact Hends|]. split; [exact Hempty|exact Hquiet].
Defined.

Lemma finishStage_unknown_stage_enters_first_again_witness :
  let h := handle_after definition (subscribe ++ drive [prep; win] []) in
  mgr_stages h = [prep; win]
  ∧ stage_calls (snd (finishStage (Some lose) h)) =
      [Finished (Some lose); Entered (Some prep)].
Proof.
  intros h. split; [reflexivity|].
  apply (finishStage_unknown_stage_enters_first_again definition
           (subscribe ++ drive [prep; win] []) lose prep [win]).
  - reflexivity.
  - by_evaluation.
Defined.

(** *** Where the claims fail *)

(** C2: after the transition has ended, the two channels of the stage
    manager still hold their handlers, and entering a stage runs them. *)
Lemma finished_transition_keeps_stage_manager_channels :
  let h' := fst (run (drive [prep] [prep]) subscribed) in
  mgr_startEv h' ≠ [] ∧ mgr_endEv h' ≠ []
  ∧ snd (enterStage (Some prep) h') =
      [Entered (Some prep); RanStage prep (Behaviour prep);
       RanOnStart Started].
Proof. repeat split; discriminate. Qed.

(** C4: in the one run of [["prep", "win", "prep"]] the [onStart] action
    runs twice, the second time when the third stage is entered. *)
Lemma onStart_runs_again_when_first_stage_recurs :
  count (RanOnStart Started)
    (snd (run (drive [prep; win; prep] [prep]) subscribed)) = 1%nat
  ∧ count (RanOnStart Started)
      (snd (run (drive [prep; win; prep] [prep; win]) subscribed)) = 2%nat.
Proof. split; reflexivity. Qed.

End TransitionFacts.

(** ** Conductor *)

Module ConductorFacts.
Import Conductor KEventFacts.

Section WithActions.
Context {A : Type}.
Implicit Types (c : Conductor.t A) (time : Q) (times : list Q).

(** A frame in which the beat is the one of the frame before calls nothing;
    any other frame calls every callback once, in subscription order. *)
Lemma update_eq time c :
  update time c =
  (mk (beatHitEv c) (obj_exists c) (bpm c)
     (inject_Z (beatIndex (bpm c) time)),
   if decide (beatIndex (bpm c) time = Qfloor (currentBeat c))
   then [] else beatHitEv c).
Proof.
  unfold update, beatIndex. case_decide; [done|].
  rewrite trigger_emit. by rewrite map_id.
Qed.

Lemma frame_eq time c :
  obj_exists c = true →
  frame time c =
  (mk (beatHitEv c) true (bpm c) (inject_Z (beatIndex (bpm c) time)),
   if decide (beatIndex (bpm c) time = Qfloor (currentBeat c))
   then [] else beatHitEv c).
Proof. intros Hex. unfold frame. by rewrite Hex, update_eq, Hex. Qed.

(** The beat that the frames leave in [currentBeat]. *)
Lemma stepwise_frames times c :
  obj_exists c = true →
  stepwise (bpm c) (Qfloor (currentBeat c)) times →
  Qfloor (currentBeat c) ≤ Qfloor (currentBeat (fst (frames times c)))
  ∧ snd (frames times c) =
    concat (replicate
              (Z.to_nat (Qfloor (currentBeat (fst (frames times c)))
                         - Qfloor (currentBeat c)))
              (beatHitEv c)).
Proof.
  revert c. induction times as [|time times IH]; intros c Hex Hsteps.
  - simpl. by rewrite Z.sub_diag.
  - destruct Hsteps as [Hstep Hsteps]. simpl.
    rewrite frame_eq by done.
    set (c1 := mk (beatHitEv c) true (bpm c)
                 (inject_Z (beatIndex (bpm c) time))).
    assert (Hbeat1 : Qfloor (currentBeat c1) = beatIndex (bpm c) time)
      by apply Qfloor_Z.
    destruct (IH c1) as [Hle Htrace]; [done|by rewrite Hbeat1|].
    destruct (frames times c1) as [c2 t2]. simpl in *.
    rewrite Htrace, Hbeat1 in *. split; [lia|].
    case_decide as Hsame.
    + by rewrite Hsame.
    + replace (Z.to_nat (Qfloor (currentBeat c2) - Qfloor (currentBeat c)))
        with (Datatypes.S (Z.to_nat (Qfloor (currentBeat c2)
                                     - beatIndex (bpm c) time)))
        by lia.
      done.
Qed.

(** C9 (amended): on a frame update the conductor takes the beat index from
    the playback position (the floor of [time / (60 / bpm)]) and, when it
    differs from the index of the frame before (0 at first), calls every
    [onBeat] callback once, in subscription order, and otherwise none: at
    most once per frame.  When the index moves on by one at most from frame
    to frame, that is once for every beat the playback position has
    passed. *)
Theorem onBeat_once_per_frame_with_a_new_beat time times c :
  obj_exists c = true →
  stepwise (bpm c) (Qfloor (currentBeat c)) times →
  snd (frame time c) =
    (if decide (beatIndex (bpm c) time = Qfloor (currentBeat c))
     then [] else beatHitEv c)
  ∧ currentBeat (fst (frame time c)) = inject_Z (beatIndex (bpm c) time)
  ∧ snd (frames times c) =
    concat (replicate
              (Z.to_nat (Qfloor (currentBeat (fst (frames times c)))
                         - Qfloor (currentBeat c)))
              (beatHitEv c)).
Proof.
  intros Hex Hsteps. rewrite frame_eq by done. simpl.
  split; [done|split; [done|]]. by apply stepwise_frames.
Qed.

End WithActions.

Lemma onBeat_once_per_frame_with_a_new_beat_witness :
  snd (frames [(1 # 2)%Q; (3 # 2)%Q; (5 # 2)%Q] (onBeat tt (new 60))) =
  [tt; tt].
Proof.
  destruct (onBeat_once_per_frame_with_a_new_beat 0%Q
              [(1 # 2)%Q; (3 # 2)%Q; (5 # 2)%Q] (onBeat tt (new 60)))
    as (_ & _ & Hframes).
  - reflexivity.
  - vm_compute. tauto.
  - exact Hframes.
Defined.

(** C9: with 60 beats per minute and the playback position at 0.5 s in one
    frame and at 2.5 s in the next, the position has passed the start of
    beat 1 and of beat 2, and the callback has run once. *)
Lemma onBeat_skips_beats_passed_within_a_frame :
  beatIndex 60 (1 # 2) = 0 ∧ beatIndex 60 (5 # 2) = 2
  ∧ snd (frames [(1 # 2)%Q; (5 # 2)%Q] (onBeat tt (new 60))) = [tt].
Proof. repeat split. Qed.

End ConductorFacts.

(** * More about the transitions *)

Module TransitionLaws.
Import Transition KEventFacts TransitionFacts.

(** The first index at which a stage is found is at most any index at which
    it is. *)
Lemma indexOf_from_le (k : Z) (y : TransitionStage)
    (l : list TransitionStage) (i : nat) :
  l !! i = Some y → k ≤ indexOf_from k (Some y) l ≤ k + Z.of_nat i.
Proof.
  revert k i. induction l as [|z l IH]; intros k i Hi; [done|].
  simpl. case_decide as Hyz; [lia|].
  destruct i as [|i]; simpl in Hi; [congruence|].
  specialize (IH (k + 1) i Hi). lia.
Qed.

Lemma indexOf_le (y : TransitionStage) (l : list TransitionStage) (i : nat) :
  l !! i = Some y → 0 ≤ indexOf (Some y) l ≤ Z.of_nat i.
Proof. intros Hi. apply (indexOf_from_le 0 y l i Hi). Qed.

(** When the last stage also stands before the end, every stage has a
    stage after its first position, and so has a stage that is not there. *)
Lemma indexOf_before_last (front : list TransitionStage)
    (last s : TransitionStage) :
  last ∈ front →
  indexOf (Some s) (front ++ [last])
  < Z.of_nat (length (front ++ [last])) - 1.
Proof.
  intros Hlast. rewrite length_app. simpl.
  assert (Hfront : ∀ y, y ∈ front →
            indexOf (Some y) (front ++ [last]) < Z.of_nat (length front)).
  { intros y Hy. apply list_elem_of_lookup_1 in Hy as [i Hi].
    pose proof (lookup_lt_Some _ _ _ Hi).
    pose proof (indexOf_le y (front ++ [last]) i) as Hle.
    rewrite lookup_app_l in Hle by done. specialize (Hle Hi). lia. }
  destruct (decide (indexOf (Some s) (front ++ [last]) = -1)) as [->|Hfound].
  { destruct front; [by apply not_elem_of_nil in Hlast|simpl; lia]. }
  apply indexOf_found in Hfound. apply list_elem_of_lookup_2 in Hfound.
  apply elem_of_app in Hfound as [Hin|Hin%list_elem_of_singleton].
  - specialize (Hfront s Hin). lia.
  - subst s. specialize (Hfront last Hlast). lia.
Qed.

Section WithActions.
Context {A : Type}.
Implicit Types (h : Handle A) (x : StageArg).

Lemma transition_ends_app (t1 t2 : Trace A) :
  transition_ends (t1 ++ t2) = transition_ends t1 ++ transition_ends t2.
Proof. apply omap_app. Qed.

Lemma transition_ends_enterStage x h :
  transition_ends (snd (enterStage x h)) = [].
Proof.
  rewrite enterStage_eq. simpl snd.
  change (transition_ends (Entered x :: ?t)) with (transition_ends t).
  rewrite transition_ends_app.
  assert (Hint : transition_ends (internal_start x h) = []).
  { pose proof (internal_start_Forall x h) as Hall.
    induction Hall as [|e t He _ IH]; [done|]. by destruct e. }
  assert (Hext : transition_ends (external_start x h) = []).
  { unfold external_start, triggerOn.
    rewrite trigger_pure by (intros; apply run_StageFilter_state). simpl snd.
    induction (startEv h) as [|f l IH]; [done|]. simpl.
    rewrite transition_ends_app, IH, app_nil_r.
    unfold run_StageFilter. by case_decide. }
  by rewrite Hint, Hext.
Qed.

Lemma transition_ends_external_end x h :
  transition_ends (external_end x h) = [].
Proof.
  unfold external_end, triggerOn.
  rewrite trigger_pure by (intros; apply run_StageFilter_state). simpl snd.
  induction (endEv h) as [|f l IH]; [done|]. simpl.
  rewrite transition_ends_app, IH, app_nil_r.
  unfold run_StageFilter. by case_decide.
Qed.

(** *** A sequence that cannot end, and one that is empty *)

Lemma finishes_never_last (fs : list TransitionStage) h :
  installed h →
  (∀ s : TransitionStage,
     indexOf (Some s) (mgr_stages h)
     < Z.of_nat (length (mgr_stages h)) - 1) →
  fst (run (map (λ s, Mgr (FinishStage s)) fs) h) = h
  ∧ transition_ends (snd (run (map (λ s, Mgr (FinishStage s)) fs) h)) = [].
Proof.
  intros Hinst Hall. induction fs as [|s fs [IHst IHtr]]; [done|].
  rewrite map_cons, run_cons. cbn [fst snd call manager_call].
  rewrite finishStage_next by done. cbn [fst snd].
  split; [done|].
  rewrite <- app_comm_cons.
  change (transition_ends (Finished (Some s) :: ?t)) with (transition_ends t).
  rewrite !transition_ends_app, transition_ends_enterStage,
    transition_ends_external_end.
  by rewrite IHtr.
Qed.

(** X1: when the stage at the end of the sequence also stands earlier in it,
    the run cannot end.  Whatever stages [finishStage] is then called with,
    and however often, no transition-end subscriber is called and the state
    stays the one that [trigger] left: the camera unpaused and shown, the
    subscriptions in place. *)
Theorem transition_never_ends_when_last_stage_recurs
    (transAction : TransitionDefinition A) (cs : list (Call A))
    (front : list TransitionStage) (last : TransitionStage)
    (fs : list TransitionStage) :
  let h := handle_after transAction cs in
  let r := run (drive (front ++ [last]) fs) h in
  last ∈ front →
  transition_ends (snd r) = []
  ∧ fst r = fst (trigger (front ++ [last]) h)
  ∧ camera_paused (fst r) = false ∧ camera_hidden (fst r) = false.
Proof.
  intros h r Hlast. subst r. unfold drive. rewrite run_cons.
  cbn [fst snd call transition_call].
  assert (Hinst : installed (fst (trigger (front ++ [last]) h))).
  { apply (installed_call (Trans (Trigger (front ++ [last])))).
    apply installed_handle_after. }
  destruct (finishes_never_last fs _ Hinst) as [Hst Htr].
  { intros s. rewrite trigger_eq. cbn [fst mgr_stages set_camera_hidden
      set_camera_paused set_mgr_stages]. by apply indexOf_before_last. }
  rewrite Hst, transition_ends_app, Htr.
  rewrite trigger_eq. cbn [fst snd].
  by rewrite transition_ends_enterStage.
Qed.

Lemma call_mgr_stages (c : Call A) h :
  installed h → ¬ is_trigger c → mgr_stages (fst (call c h)) = mgr_stages h.
Proof.
  intros Hinst Hc.
  destruct c as [[a|s a|s|s| |]|[S|s a|s a|a|a|a]]; simpl in *; try done.
  - by rewrite enterStage_eq.
  - by apply finishStage_mgr_stages.
  - by rewrite callPrompt_eq.
  - by rewrite callInput_eq.
Qed.

Lemma run_mgr_stages (cs : list (Call A)) h :
  installed h → Forall (λ c, ¬ is_trigger c) cs →
  mgr_stages (fst (run cs h)) = mgr_stages h.
Proof.
  intros Hinst Hcs.
  enough (Hgoal : (installed (fst (run cs h)) ∧
                   mgr_stages (fst (run cs h)) = mgr_stages h) ∧ True)
    by (by destruct Hgoal as [[_ ?] _]).
  apply (run_ind (λ c, ¬ is_trigger c)
           (λ h', installed h' ∧ mgr_stages h' = mgr_stages h)
           (λ _, True)); try done.
  intros c h' Hc [Hinst' Heq]. repeat split.
  - by apply installed_call.
  - by rewrite call_mgr_stages.
Qed.

(** X2: as long as [trigger] has not been called, the sequence is empty,
    and [finishStage], with whatever stage, ends the transition at once: it
    calls the transition-end subscribers and enters no stage, drops every
    subscription on the outer channels and pauses and hides the camera. *)
Theorem finishStage_before_trigger_ends_transition
    (transAction : TransitionDefinition A) (cs : list (Call A))
    (stage : TransitionStage) :
  let h := handle_after transAction cs in
  let r := finishStage (Some stage) h in
  Forall (λ c, ¬ is_trigger c) cs →
  mgr_stages h = []
  ∧ transition_ends (snd r) = endTransEv h
  ∧ entries (snd r) = []
  ∧ outer_channels_empty (fst r)
  ∧ camera_paused (fst r) = true ∧ camera_hidden (fst r) = true.
Proof.
  intros h r Hcs. subst r.
  assert (Hinst : installed h) by apply installed_handle_after.
  assert (Hstages : mgr_stages h = []).
  { subst h. unfold handle_after.
    rewrite run_mgr_stages; [|apply installed_createTransition|done].
    rewrite createTransition_eq. cbn [fst].
    rewrite run_mgr_stages; [done|done|].
    apply Forall_forall. intros c Hc.
    apply list_elem_of_fmap in Hc as (c' & -> & _). simpl. tauto. }
  rewrite finishStage_last; [|done|by rewrite Hstages].
  cbn [fst snd].
  assert (Hends : ∀ l : list A,
            transition_ends (map RanTransitionEnd l) = l
            ∧ entries (map RanTransitionEnd l) = []).
  { induction l as [|a l [IH1 IH2]]; [done|].
    split; [|done]. unfold transition_ends. simpl. f_equal. apply IH1. }
  destruct (Hends (endTransEv h)) as [Hte Hen].
  change (transition_ends (Finished (Some stage) :: ?t))
    with (transition_ends t).
  change (entries (Finished (Some stage) :: ?t)) with (entries t).
  by rewrite Hte, Hen.
Qed.

(** *** The transition-end subscriptions *)

Section TransitionEnd.
Context `{!EqDecision A}.

Lemma count_StageFilter_0 (e : Event A) ran x (l : list (StageFilter A)) h :
  (∀ s a, ran s a ≠ e) →
  count e (snd (KEvent.trigger (run_StageFilter ran x) l h)) = 0%nat.
Proof.
  intros Hran.
  rewrite trigger_pure by (intros; apply run_StageFilter_state). simpl snd.
  induction l as [|f l IH]; [done|]. simpl. rewrite count_app, IH.
  unfold run_StageFilter. case_decide; simpl; [|done].
  by rewrite count_cons, count_nil, decide_False.
Qed.

Lemma count_RanTransitionEnd_enterStage (a : A) x h :
  count (RanTransitionEnd a) (snd (enterStage x h)) = 0%nat.
Proof.
  rewrite enterStage_eq. simpl snd. rewrite count_cons, count_app.
  rewrite (count_Forall_0 is_internal _ (internal_start x h))
    by (apply internal_start_Forall || done).
  unfold external_start, triggerOn. rewrite count_StageFilter_0 by done.
  by rewrite decide_False.
Qed.

Lemma count_map_RanTransitionEnd (a : A) (l : list A) :
  count (RanTransitionEnd a) (map RanTransitionEnd l) = count a l.
Proof.
  induction l as [|b l IH]; [done|].
  rewrite map_cons, !count_cons, IH.
  repeat case_decide; simplify_eq; done.
Qed.

Lemma call_transition_end (a : A) (c : Call A) h :
  installed h →
  (count (RanTransitionEnd a) (snd (call c h))
   + count a (endTransEv (fst (call c h))))%nat
  = (count a (endTransEv h)
     + if decide (c = Trans (OnTransitionEnd a)) then 1 else 0)%nat.
Proof.
  intros Hinst.
  destruct c as [[a'|s a'|s|s| |]|[S|s a'|s a'|a'|a'|a']];
    try (rewrite decide_False by congruence);
    cbn [call manager_call transition_call];
    try (simpl; rewrite ?count_nil; lia).
  - rewrite enterStage_eq at 2. cbn [fst].
    rewrite count_RanTransitionEnd_enterStage. lia.
  - destruct (decide (indexOf (Some s) (mgr_stages h)
                      < Z.of_nat (length (mgr_stages h)) - 1)).
    + rewrite finishStage_next by done. cbn [fst snd].
      rewrite count_cons, !count_app, count_RanTransitionEnd_enterStage.
      unfold external_end, triggerOn. rewrite count_StageFilter_0 by done.
      rewrite decide_False by done. lia.
    + rewrite finishStage_last by done. cbn [fst snd].
      rewrite count_cons, count_map_RanTransitionEnd, decide_False by done.
      simpl. rewrite count_nil. lia.
  - rewrite callPrompt_eq. cbn [fst snd]. rewrite count_map_0 by done. lia.
  - rewrite callInput_eq. cbn [fst snd]. rewrite count_map_0 by done. lia.
  - rewrite trigger_eq. cbn [fst snd].
    rewrite count_RanTransitionEnd_enterStage. simpl. lia.
  - simpl. unfold KEvent.add. rewrite count_app, count_cons, ?count_nil.
    simpl. repeat case_decide; simplify_eq; lia.
Qed.

(** X3: a subscription to transition-end is used up by the first end of a
    transition.  Over any calls, the number of times an action was called as
    a transition-end subscriber plus the number of its subscriptions still
    in place is the number of its subscriptions at the start plus the number
    of [onTransitionEnd] calls made with it since: each subscription is
    called once at most, and none is lost uncalled. *)
Theorem transition_end_subscription_is_called_once_at_most
    (transAction : TransitionDefinition A) (cs cs' : list (Call A))
    (action : A) :
  let h := handle_after transAction cs in
  let r := run cs' h in
  (count (RanTransitionEnd action) (snd r)
   + count action (endTransEv (fst r)))%nat
  = (count action (endTransEv h)
     + count (Trans (OnTransitionEnd action)) cs')%nat.
Proof.
  intros h r. subst r.
  assert (Hinst : installed h) by apply installed_handle_after.
  clearbody h. revert h Hinst.
  induction cs' as [|c cs' IH]; intros h Hinst.
  - simpl. rewrite !count_nil. lia.
  - rewrite run_cons. cbn [fst snd]. rewrite count_app, (count_cons _ c).
    pose proof (call_transition_end action c h Hinst) as Hc.
    pose proof (IH _ (installed_call c h Hinst)) as Hrest.
    lia.
Qed.

End TransitionEnd.

(** *** What every state of a handle has *)

Lemma entries_app (t1 t2 : Trace A) :
  entries (t1 ++ t2) = entries t1 ++ entries t2.
Proof. apply omap_app. Qed.

Lemma entries_Forall_nil (f : Event A → bool) (t : Trace A) :
  Forall (λ e, f e = true) t → (∀ x, f (Entered x) = false) → entries t = [].
Proof.
  intros Hall Hf. induction Hall as [|e t He _ IH]; [done|].
  destruct e; try done. by rewrite Hf in He.
Qed.

Lemma entries_enterStage x h : entries (snd (enterStage x h)) = [x].
Proof.
  rewrite enterStage_eq. cbn [snd].
  change (entries (Entered x :: ?t)) with (x :: entries t).
  rewrite entries_app.
  rewrite (entries_Forall_nil is_internal (internal_start x h))
    by (apply internal_start_Forall || done).
  by rewrite (entries_Forall_nil is_external (external_start x h))
    by (apply external_start_Forall || done).
Qed.

Lemma entries_map_RanTransitionEnd (l : list A) :
  entries (map RanTransitionEnd l) = [].
Proof. by induction l. Qed.

Lemma entries_finishStage x h :
  installed h →
  entries (snd (finishStage x h)) =
  if bool_decide (indexOf x (mgr_stages h)
                  < Z.of_nat (length (mgr_stages h)) - 1)
  then [mgr_stages h !! Z.to_nat (indexOf x (mgr_stages h) + 1)]
  else [].
Proof.
  intros Hinst. case_bool_decide.
  - rewrite finishStage_next by done. cbn [snd].
    change (entries (Finished x :: ?t)) with (entries t).
    rewrite entries_app, entries_enterStage.
    by rewrite (entries_Forall_nil is_external (external_end x h))
      by (apply external_end_Forall || done).
  - rewrite finishStage_last by done. cbn [snd].
    change (entries (Finished x :: ?t)) with (entries t).
    apply entries_map_RanTransitionEnd.
Qed.

Lemma call_camera (c : Call A) h :
  installed h ∧ camera_paused h = camera_hidden h →
  installed (fst (call c h))
  ∧ camera_paused (fst (call c h)) = camera_hidden (fst (call c h)).
Proof.
  intros [Hinst Hcam]. split; [by apply installed_call|].
  destruct c as [[a|s a|s|s| |]|[S|s a|s a|a|a|a]]; simpl; try done.
  - by rewrite enterStage_eq.
  - destruct (decide (indexOf (Some s) (mgr_stages h)
                      < Z.of_nat (length (mgr_stages h)) - 1)).
    + by rewrite finishStage_next.
    + by rewrite finishStage_last.
  - by rewrite callPrompt_eq.
  - by rewrite callInput_eq.
  - by rewrite trigger_eq.
Qed.

Lemma call_mgr_startEv_prefix (c : Call A) h :
  installed h → mgr_startEv h `prefix_of` mgr_startEv (fst (call c h)).
Proof.
  intros Hinst.
  destruct c as [[a|s a|s|s| |]|c];
    try (rewrite call_mgr_startEv by (done || by simpl; tauto); done).
  - simpl. by apply prefix_app_r.
  - simpl. by apply prefix_app_r.
Qed.

(** X4: what holds of a handle after [createTransition] and any calls.  The
    listener is the one handler of [stageManager.endEv], so a [finishStage]
    call enters one stage at most; the camera is hidden exactly when it is
    paused; and no later call takes a handler away from
    [stageManager.startEv] or changes the order of those there. *)
Theorem handle_invariants (transAction : TransitionDefinition A)
    (cs cs' : list (Call A)) (stage : TransitionStage) :
  let h := handle_after transAction cs in
  mgr_endEv h = [HAdvance]
  ∧ camera_paused h = camera_hidden h
  ∧ (length (entries (snd (finishStage (Some stage) h))) ≤ 1)%nat
  ∧ mgr_startEv h `prefix_of` mgr_startEv (fst (run cs' h)).
Proof.
  intros h.
  assert (Hinst : installed h) by apply installed_handle_after.
  split; [done|]. split; [|split].
  - subst h. unfold handle_after.
    enough (Hgoal : ∀ (h0 : Handle A) l,
              installed h0 ∧ camera_paused h0 = camera_hidden h0 →
              installed (fst (run l h0))
              ∧ camera_paused (fst (run l h0))
                = camera_hidden (fst (run l h0))).
    { apply Hgoal. rewrite createTransition_eq. cbn [fst].
      by apply Hgoal. }
    intros h0 l Hh0.
    destruct (run_ind (λ _, True)
                (λ h', installed h' ∧ camera_paused h' = camera_hidden h')
                (λ _, True)) with (cs := l) (h := h0) as [Hres _];
      try done.
    + intros c h' _ Hh'. split; [by apply call_camera|done].
    + by apply Forall_true.
  - rewrite entries_finishStage by done. case_bool_decide; simpl; lia.
  - clearbody h. revert h Hinst.
    induction cs' as [|c cs' IH]; intros h Hinst; [done|].
    rewrite run_cons. cbn [fst].
    etrans; [by apply (call_mgr_startEv_prefix c)|].
    apply IH. by apply installed_call.
Qed.

(** *** Calls that leave the state as it is *)

Lemma run_replicate_fixed (c : Call A) (n : nat) h :
  fst (call c h) = h →
  run (replicate n c) h = (h, concat (replicate n (snd (call c h)))).
Proof.
  intros Hfix. induction n as [|n IH]; [done|].
  cbn [replicate]. rewrite run_cons, Hfix, IH. done.
Qed.

(** X5: [finishStage] for a stage that is not the last of the sequence
    leaves the state as it was: the handle keeps no position.  Called [n]
    times in a row for the same stage it does [n] times the same, and enters
    the next stage [n] times. *)
Theorem finishStage_again_enters_next_stage_again
    (transAction : TransitionDefinition A) (cs : list (Call A))
    (stage : TransitionStage) (n : nat) :
  let h := handle_after transAction cs in
  let next := mgr_stages h !! Z.to_nat (indexOf (Some stage) (mgr_stages h) + 1) in
  indexOf (Some stage) (mgr_stages h)
  < Z.of_nat (length (mgr_stages h)) - 1 →
  run (replicate n (Mgr (FinishStage stage))) h =
    (h, concat (replicate n (snd (finishStage (Some stage) h))))
  ∧ entries (snd (run (replicate n (Mgr (FinishStage stage))) h)) =
    replicate n next.
Proof.
  intros h next Hlt.
  assert (Hinst : installed h) by apply installed_handle_after.
  assert (Hrun : run (replicate n (Mgr (FinishStage stage))) h =
            (h, concat (replicate n (snd (finishStage (Some stage) h))))).
  { apply (run_replicate_fixed (Mgr (FinishStage stage))). simpl.
    by rewrite finishStage_next. }
  split; [done|]. rewrite Hrun. cbn [snd].
  induction n as [|n IH]; [done|].
  cbn [replicate concat]. rewrite entries_app, entries_finishStage by done.
  rewrite bool_decide_eq_true_2 by done. simpl. f_equal. apply IH.
  apply (run_replicate_fixed (Mgr (FinishStage stage))). simpl.
  by rewrite finishStage_next.
Qed.

(** X6: [callPrompt] and [callInput] do not look at the stages and change
    nothing: each call runs the subscribers of its own channel, in the order
    they subscribed, so [n] calls run each of them [n] times. *)
Theorem callPrompt_and_callInput_run_their_subscribers (h : Handle A)
    (n : nat) :
  run (replicate n (Mgr CallPrompt)) h =
    (h, concat (replicate n (map RanPromptTime (promptEv h))))
  ∧ run (replicate n (Mgr CallInput)) h =
    (h, concat (replicate n (map RanInputPromptTime (inputEv h)))).
Proof.
  split.
  - rewrite (run_replicate_fixed (Mgr CallPrompt)); simpl;
      by rewrite callPrompt_eq.
  - rewrite (run_replicate_fixed (Mgr CallInput)); simpl;
      by rewrite callInput_eq.
Qed.

(** X7: a second [trigger] takes the place of the first.  The state after
    [trigger(S1)] and then [trigger(S2)] is the state after [trigger(S2)]
    alone, so every later call is judged against [S2]; of the first only the
    entry of its first stage has happened. *)
Theorem trigger_again_replaces_the_run (h : Handle A)
    (S1 S2 : list TransitionStage) :
  fst (run [Trans (Trigger S1); Trans (Trigger S2)] h) = fst (trigger S2 h)
  ∧ entries (snd (run [Trans (Trigger S1); Trans (Trigger S2)] h)) =
    [S1 !! 0%nat; S2 !! 0%nat].
Proof.
  rewrite !run_cons. cbn [fst snd call transition_call run].
  rewrite !trigger_eq. cbn [fst snd]. split; [done|].
  unfold skip. cbn [snd]. rewrite app_nil_r, entries_app.
  by rewrite !entries_enterStage.
Qed.

(** *** A run of distinct stages *)

Lemma finishes_in_order (pre : list TransitionStage) (s : TransitionStage)
    (rest : list TransitionStage) h :
  installed h → mgr_stages h = pre ++ s :: rest → NoDup (pre ++ s :: rest) →
  let r := run (map (λ s, Mgr (FinishStage s)) (s :: rest)) h in
  fst r = torn_down h
  ∧ entries (snd r) = map Some rest
  ∧ transition_ends (snd r) = endTransEv h.
Proof.
  intros Hinst. revert pre s. induction rest as [|next rest IH];
    intros pre s Hstages Hnd r; subst r;
    rewrite map_cons, run_cons; cbn [fst snd call manager_call].
  - assert (Hidx : indexOf (Some s) (mgr_stages h) = Z.of_nat (length pre)).
    { rewrite Hstages. apply indexOf_NoDup; [done|].
      by rewrite list_lookup_middle. }
    rewrite finishStage_last;
      [|done|rewrite Hidx, Hstages, length_app; simpl; lia].
    cbn [fst snd map run]. unfold skip. cbn [fst snd].
    rewrite app_nil_r.
    change (entries (Finished (Some s) :: ?t)) with (entries t).
    change (transition_ends (Finished (Some s) :: ?t))
      with (transition_ends t).
    split; [done|]. split; [apply entries_map_RanTransitionEnd|].
    induction (endTransEv h) as [|a l IHl]; [done|].
    unfold transition_ends. simpl. f_equal. apply IHl.
  - assert (Hidx : indexOf (Some s) (mgr_stages h) = Z.of_nat (length pre)).
    { rewrite Hstages. apply indexOf_NoDup; [done|].
      by rewrite list_lookup_middle. }
    assert (Hnext : mgr_stages h !! Z.to_nat (Z.of_nat (length pre) + 1)
                    = Some next).
    { rewrite Hstages.
      replace (Z.to_nat (Z.of_nat (length pre) + 1))
        with (length pre + 1)%nat by lia.
      rewrite lookup_app_r by lia.
      by replace (length pre + 1 - length pre)%nat with 1%nat by lia. }
    rewrite finishStage_next;
      [|done|rewrite Hidx, Hstages, length_app; simpl; lia].
    cbn [fst snd]. rewrite Hidx, Hnext.
    destruct (IH (pre ++ [s]) next) as (Hst & Hen & Hte).
    { by rewrite <- app_assoc. }
    { by rewrite <- app_assoc. }
    rewrite Hst. split; [done|].
    rewrite <- app_comm_cons.
    change (entries (Finished (Some s) :: ?t)) with (entries t).
    change (transition_ends (Finished (Some s) :: ?t))
      with (transition_ends t).
    rewrite !entries_app, !transition_ends_app.
    rewrite entries_enterStage, transition_ends_enterStage,
      transition_ends_external_end, Hen, Hte.
    rewrite (entries_Forall_nil is_external (external_end (Some s) h))
      by (apply external_end_Forall || done).
    done.
Qed.

(** X8: a run of pairwise distinct stages, driven with [trigger] and then
    [finishStage] for each stage in order, enters every stage once, in the
    order of the sequence, then calls the transition-end subscribers, each
    once, and ends in the state [trigger] left but with the outer channels
    empty and the camera paused and hidden; the sequence stays. *)
Theorem run_of_distinct_stages_completes
    (transAction : TransitionDefinition A) (cs : list (Call A))
    (first : TransitionStage) (rest : list TransitionStage) :
  let h := handle_after transAction cs in
  let S := first :: rest in
  let r := run (drive S S) h in
  NoDup S →
  entries (snd r) = map Some S
  ∧ transition_ends (snd r) = endTransEv h
  ∧ fst r = torn_down (fst (trigger S h))
  ∧ mgr_stages (fst r) = S ∧ outer_channels_empty (fst r)
  ∧ camera_paused (fst r) = true ∧ camera_hidden (fst r) = true.
Proof.
  intros h S r Hnd. subst r S. unfold drive. rewrite run_cons.
  cbn [fst snd call transition_call].
  assert (Hinst : installed (fst (trigger (first :: rest) h))).
  { apply (installed_call (Trans (Trigger (first :: rest)))).
    apply installed_handle_after. }
  destruct (finishes_in_order [] first rest _ Hinst) as (Hst & Hen & Hte);
    [by rewrite trigger_eq|done|].
  rewrite Hst, entries_app, transition_ends_app, Hen, Hte.
  rewrite !trigger_eq. cbn [fst snd].
  rewrite entries_enterStage, transition_ends_enterStage.
  by repeat split.
Qed.

(** *** What enterStage calls *)


End WithActions.


(** *** Instances *)

Import Scenario.

#[local] Ltac by_evaluation :=
  apply (bool_decide_unpack _); vm_compute; exact I.

Lemma transition_never_ends_when_last_stage_recurs_witness :
  let h := handle_after definition subscribe in
  let r := run (drive ([prep; win] ++ [prep]) [prep; win; prep; lose]) h in
  transition_ends (snd r) = []
  ∧ fst r = fst (trigger ([prep; win] ++ [prep]) h)
  ∧ camera_paused (fst r) = false ∧ camera_hidden (fst r) = false.
Proof.
  apply (transition_never_ends_when_last_stage_recurs definition subscribe
           [prep; win] prep [prep; win; prep; lose]).
  by_evaluation.
Defined.

Lemma finishStage_before_trigger_ends_transition_witness :
  let h := handle_after definition subscribe in
  let r := finishStage (Some win) h in
  mgr_stages h = []
  ∧ transition_ends (snd r) = endTransEv h
  ∧ entries (snd r) = []
  ∧ outer_channels_empty (fst r)
  ∧ camera_paused (fst r) = true ∧ camera_hidden (fst r) = true.
Proof.
  apply (finishStage_before_trigger_ends_transition definition subscribe
           win).
  unfold subscribe. apply Forall_app. split.
  - apply Forall_flat_map, Forall_forall. intros s _.
    repeat constructor; simpl; tauto.
  - repeat constructor; simpl; tauto.
Defined.

Lemma finishStage_again_enters_next_stage_again_witness :
  let h := handle_after definition (subscribe ++ drive [prep; win] []) in
  entries (snd (run (replicate 2 (Mgr (FinishStage prep))) h)) =
  replicate 2
    (mgr_stages h !! Z.to_nat (indexOf (Some prep) (mgr_stages h) + 1)).
Proof.
  apply (finishStage_again_enters_next_stage_again definition
           (subscribe ++ drive [prep; win] []) prep 2).
  by vm_compute.
Defined.

Lemma run_of_distinct_stages_completes_witness :
  let h := handle_after definition subscribe in
  let r := run (drive [prep; win; speed] [prep; win; speed]) h in
  entries (snd r) = map Some [prep; win; speed]
  ∧ transition_ends (snd r) = endTransEv h
  ∧ fst r = torn_down (fst (trigger [prep; win; speed] h))
  ∧ mgr_stages (fst r) = [prep; win; speed] ∧ outer_channels_empty (fst r)
  ∧ camera_paused (fst r) = true ∧ camera_hidden (fst r) = true.
Proof.
  apply (run_of_distinct_stages_completes definition subscribe prep
           [win; speed]).
  by_evaluation.
Defined.

End TransitionLaws.

(** * More about the conductor *)

Module ConductorLaws.
Import Conductor KEventFacts ConductorFacts.

Section WithActions.
Context {A : Type}.
Implicit Types (c : Conductor.t A) (time : Q) (times : list Q).

Lemma frames_without_obj times c :
  obj_exists c = false → frames times c = (c, []).
Proof.
  intros Hex. induction times as [|time times IH]; [done|].
  simpl. unfold frame. by rewrite Hex, IH.
Qed.

Lemma obj_exists_onBeats (actions : list A) c :
  obj_exists (onBeats actions c) = obj_exists c.
Proof.
  unfold onBeats. revert c.
  induction actions as [|a actions IH]; intros c; [done|].
  simpl. by rewrite IH.
Qed.

(** X10: [destroy] ends the conductor for good.  It drops the [onBeat]
    subscribers of a conductor whose object exists, and after it no frame
    calls a callback, whatever the playback position does and whatever is
    subscribed with [onBeat] afterwards; a second [destroy] does nothing. *)
Theorem destroyed_conductor_calls_nothing (actions : list A) times c :
  let d := onBeats actions (destroy c) in
  frames times d = (d, [])
  ∧ obj_exists (destroy c) = false
  ∧ destroy (destroy c) = destroy c
  ∧ (obj_exists c = true → beatHitEv (destroy c) = []).
Proof.
  intros d.
  assert (Hgone : obj_exists (destroy c) = false).
  { unfold destroy. by destruct (obj_exists c) eqn:Hex. }
  split; [|split; [done|split]].
  - apply frames_without_obj. subst d. by rewrite obj_exists_onBeats.
  - unfold destroy at 1. by rewrite Hgone.
  - intros Hex. unfold destroy. by rewrite Hex.
Qed.

Lemma changes_le (beat : Z) (beats : list Z) :
  (changes beat beats ≤ length beats)%nat.
Proof.
  revert beat. induction beats as [|b beats IH]; intros beat; [done|].
  simpl. specialize (IH b). case_decide; lia.
Qed.

Lemma frames_cons time times c :
  obj_exists c = true →
  frames (time :: times) c =
  (fst (frames times (after_frame time c)),
   (if decide (beatIndex (bpm c) time = Qfloor (currentBeat c))
    then [] else beatHitEv c) ++ snd (frames times (after_frame time c))).
Proof.
  intros Hex. cbn [frames]. unfold frame. rewrite Hex, update_eq.
  change (mk (beatHitEv c) (obj_exists c) (bpm c)
            (inject_Z (beatIndex (bpm c) time)))
    with (after_frame time c).
  by destruct (frames times (after_frame time c)).
Qed.

Lemma last_cons_default (b d d' : Z) (l : list Z) :
  List.last (b :: l) d = List.last (b :: l) d'.
Proof.
  revert b. induction l as [|b' l IH]; intros b; [done|].
  change (List.last (b' :: l) d = List.last (b' :: l) d'). apply IH.
Qed.

Lemma Qfloor_after_frame time c :
  Qfloor (currentBeat (after_frame time c)) = beatIndex (bpm c) time.
Proof. apply Qfloor_Z. Qed.

(** X11: over any frames of a conductor whose object exists, the callbacks
    are called once, all of them and in subscription order, in each frame
    whose beat differs from the beat of the frame before (at first from the
    beat in [currentBeat]), be it later or earlier, and in no other frame:
    never more often than there are frames.  The frames leave the
    subscribers as they are and the beat of the last frame in
    [currentBeat]. *)
Theorem frames_call_once_per_change_of_beat times c :
  let beats := map (beatIndex (bpm c)) times in
  let n := changes (Qfloor (currentBeat c)) beats in
  obj_exists c = true →
  snd (frames times c) = concat (replicate n (beatHitEv c))
  ∧ (n ≤ length times)%nat
  ∧ beatHitEv (fst (frames times c)) = beatHitEv c
  ∧ Qfloor (currentBeat (fst (frames times c)))
    = List.last beats (Qfloor (currentBeat c)).
Proof.
  intros beats n Hex. subst beats n.
  split; [|split; [|split]].
  - revert c Hex. induction times as [|time times IH]; intros c Hex; [done|].
    rewrite frames_cons by done. cbn [snd map changes].
    rewrite (IH (after_frame time c) Hex), Qfloor_after_frame.
    by case_decide.
  - pose proof (changes_le (Qfloor (currentBeat c))
                  (map (beatIndex (bpm c)) times)) as Hle.
    by rewrite length_map in Hle.
  - revert c Hex. induction times as [|time times IH]; intros c Hex; [done|].
    rewrite frames_cons by done. cbn [fst].
    by rewrite (IH (after_frame time c) Hex).
  - revert c Hex. induction times as [|time times IH]; intros c Hex; [done|].
    rewrite frames_cons by done. cbn [fst].
    rewrite (IH (after_frame time c) Hex), Qfloor_after_frame.
    destruct times as [|time' times]; [done|].
    apply last_cons_default.
Qed.

End WithActions.

Lemma frames_call_once_per_change_of_beat_witness :
  snd (frames [(1 # 2)%Q; (5 # 2)%Q; (1 # 2)%Q] (onBeat tt (new 60))) =
  [tt; tt].
Proof.
  apply (frames_call_once_per_change_of_beat
           [(1 # 2)%Q; (5 # 2)%Q; (1 # 2)%Q] (onBeat tt (new 60))).
  reflexivity.
Defined.

End ConductorLaws.
